(** * CasADi MX node layer: Reshape and SubRef

    A shallow embedding of [casadi/core/mx/reshape.cpp] (the Reshape node)
    and of the SubRef node declared in [subref.hpp], with the properties of
    their numeric evaluation, sparsity propagation and forward/adjoint
    sensitivity propagation; of the node's printing and code generation,
    with the C statement that is generated; and of the two plain C functions
    of the rocket model in [examples/sundials_testing.cpp].

    Conventions of the embedding.
    - A pointer ([DMatrix*], [MX*]) is an address; the objects live in a
      store [gmap addr _].  Two pointers are the same object exactly when the
      addresses are equal, so in-place calls are representable.
    - A function that dereferences a pointer or indexes a vector returns
      [None] where the C++ has no defined behaviour (dangling pointer, index
      past the end); [Some s'] is a normal return with the new store.
    - [casadi_assert] failing is the exception [Throw AssertionFailed]. *)

From Stdlib Require Import ZArith List Lia Ring_theory.
From Stdlib Require QArith_base HexString.
From stdpp Require Import base option list sorting gmap fin_maps strings pretty.

Set Default Proof Using "Type".
Open Scope Z_scope.
Open Scope nat_scope.

(** ** Pointers, stores and failure *)

Abbreviation addr := Z.

Inductive CasadiException : Type :=
| AssertionFailed.

Inductive except (A : Type) : Type :=
| Value (a : A)
| Throw (e : CasadiException).
Arguments Value {A} a.
Arguments Throw {A} e.

(** [for (int d = from; d < from + count; ++d) body(d)] over a state that
    every iteration may fail on. *)
Fixpoint for_range {S : Type} (from count : nat)
    (body : nat -> S -> option S) (s : S) : option S :=
  match count with
  | O => Some s
  | Datatypes.S c => s' ← body from s; for_range (Datatypes.S from) c body s'
  end.

(** [std::copy(arg + first, arg + first + count, res + d_first)] on two
    disjoint arrays: element by element, front to back; reading or writing
    past the end of an array is undefined. *)
Fixpoint copy {T : Type} (arg : list T) (first count : nat)
    (res : list T) (d_first : nat) : option (list T) :=
  match count with
  | O => Some res
  | Datatypes.S c =>
      x ← arg !! first;
      _ ← res !! d_first;
      copy arg (Datatypes.S first) c (<[d_first := x]> res) (Datatypes.S d_first)
  end.

(** ** Sparsity patterns and matrices *)

(** Modelled from the spec: the sparsity pattern class ([Sparsity], whose
    code is outside reshape.cpp and subref.hpp), "an immutable description of
    which matrix entries are structurally nonzero; provides nonzero count
    and per-axis extents".  [nz_pos] lists the (row, column) coordinates of
    the structural nonzeros in storage order, so the k-th stored value sits
    at the k-th coordinate. *)
Record Sparsity : Type := mkSparsity {
  size1 : nat;
  size2 : nat;
  nz_pos : list (nat * nat)
}.

Definition sp_nnz (sp : Sparsity) : nat := length (nz_pos sp).
Definition sp_shape (sp : Sparsity) : nat * nat := (size1 sp, size2 sp).

Global Instance Sparsity_eq_dec : EqDecision Sparsity.
Proof. solve_decision. Defined.

(** [Matrix<T>] ([DMatrix] for [T = double], [SX] for [T = SXElement]): a
    pattern and the vector of its nonzero values; [ptr()] is the start of
    [data]. *)
Record Matrix (T : Type) : Type := mkMatrix {
  m_sparsity : Sparsity;
  data : list T
}.
Arguments mkMatrix {T} _ _.
Arguments m_sparsity {T} _.
Arguments data {T} _.

Definition set_data {T : Type} (m : Matrix T) (d : list T) : Matrix T :=
  mkMatrix (m_sparsity m) d.

(** [bvec_t]: the 64-bit word that [get_bvec_t] sees in the place of each
    [double] of a buffer during sparsity propagation. *)
Abbreviation bvec_t := Z.

(** ** The MX expression type, as far as the nodes use it *)

(** Modelled from the spec: range selectors ([Slice], whose code is
    outside reshape.cpp and subref.hpp), "start, stop, step semantics,
    analogous to a slice ... enumerable as an ordered sequence of indices".
    The three numbers are taken as already resolved against the axis
    length. *)
Record Slice : Type := mkSlice {
  start : nat;
  stop : nat;
  step : nat
}.

(** The operations of [MX] and [mx_tools] that the two nodes call.  Their
    code is outside reshape.cpp and subref.hpp, so they are an interface:
    what is proved about the nodes holds for every implementation of it. *)
Class MXInterface (MX : Type) : Type := {
  (** [MX()], the empty expression *)
  mx_empty : MX;
  (** [x.sparsity()] *)
  mx_sparsity : MX -> Sparsity;
  (** [reshape(x, rc)] of [mx_tools] *)
  reshape : MX -> nat * nat -> MX;
  (** [a.addToSum(b)]: the value of [a] afterwards *)
  addToSum : MX -> MX -> MX;
  (** [x(i, j)]: the sub-block of an expression *)
  mx_sub : MX -> Slice -> Slice -> MX;
  (** a zero expression of pattern [sp] with the block [(i, j)] set to [w] *)
  mx_scatter : Sparsity -> Slice -> Slice -> MX -> MX
}.

Definition mx_nnz `{MXInterface MX} (x : MX) : nat := sp_nnz (mx_sparsity x).
Definition mx_shape `{MXInterface MX} (x : MX) : nat * nat :=
  sp_shape (mx_sparsity x).

(** [MXPtrV = std::vector<MX*>], [MXPtrVV = std::vector<MXPtrV>]. *)
Abbreviation MXPtrV := (list addr).
Abbreviation MXPtrVV := (list (list addr)).

(** [v[d][0]] *)
Definition slot0 (v : MXPtrVV) (d : nat) : option addr :=
  row ← v !! d; row !! 0.

(** [*p = x] *)
Definition store_at {V : Type} (p : addr) (x : V) (s : gmap addr V) :
    option (gmap addr V) :=
  _ ← s !! p; Some (<[p := x]> s).

(** ** Reshape (reshape.cpp) *)

Module Reshape.
Section Reshape.
Context {MX : Type} `{MXInterface MX}.

(** The node: [MXNode]'s dependency list (a single dependency) and the
    node's own pattern. *)
Record Node : Type := mkNode {
  dep : MX;
  sparsity : Sparsity
}.

Definition nnz (n : Node) : nat := sp_nnz (sparsity n).
Definition shape (n : Node) : nat * nat := sp_shape (sparsity n).

(** [Reshape::Reshape(const MX& x, Sparsity sp)] *)
Definition Reshape (x : MX) (sp : Sparsity) : except Node :=
  if decide (mx_nnz x = sp_nnz sp) then Value (mkNode x sp)
  else Throw AssertionFailed.

(** [Reshape::evaluateGen<T, Mat>]; [itmp] and [rtmp] are not used. *)
Definition evaluateGen {T : Type} (n : Node) (input output : list addr)
    (h : gmap addr (Matrix T)) : option (gmap addr (Matrix T)) :=
  i0 ← input !! 0;
  o0 ← output !! 0;
  (* Quick return if inplace *)
  if decide (i0 = o0) then Some h else
  out ← h !! o0;
  inp ← h !! i0;
  res ← copy (data inp) 0 (nnz n) (data out) 0;
  Some (<[o0 := set_data out res]> h).

(** [Reshape::evaluateD] and [Reshape::evaluateSX] *)
Definition evaluateD {double : Type} := @evaluateGen double.
Definition evaluateSX {SXElement : Type} := @evaluateGen SXElement.

(** The backward loop of [propagateSparsity]:
    [*arg_ptr++ |= *res_ptr; *res_ptr++ = 0]. *)
Definition bwd_step (k : nat) (st : list bvec_t * list bvec_t) :
    option (list bvec_t * list bvec_t) :=
  a ← st.1 !! k;
  r ← st.2 !! k;
  Some (<[k := Z.lor a r]> st.1, <[k := 0%Z]> st.2).

(** [Reshape::propagateSparsity] *)
Definition propagateSparsity (n : Node) (input output : list addr) (fwd : bool)
    (h : gmap addr (Matrix bvec_t)) : option (gmap addr (Matrix bvec_t)) :=
  i0 ← input !! 0;
  o0 ← output !! 0;
  (* Quick return if inplace *)
  if decide (i0 = o0) then Some h else
  out ← h !! o0;
  inp ← h !! i0;
  let res := data out in
  let arg := data inp in
  if fwd then
    res' ← copy arg 0 (length arg) res 0;
    Some (<[o0 := set_data out res']> h)
  else
    st ← for_range 0 (length arg) bwd_step (arg, res);
    Some (<[o0 := set_data out st.2]> (<[i0 := set_data inp st.1]> h)).

(** [Reshape::evaluateMX] *)
Definition evaluateMX (n : Node) (input output : MXPtrV)
    (fwdSeed fwdSens adjSeed adjSens : MXPtrVV) (output_given : bool)
    (s : gmap addr MX) : option (gmap addr MX) :=
  i0 ← input !! 0;
  o0 ← output !! 0;
  (* Quick return if inplace *)
  if decide (i0 = o0) then Some s else
  s ← (if output_given then Some s
       else x ← s !! i0; store_at o0 (reshape x (shape n)) s);
  (* Forward sensitivities *)
  let nfwd := length fwdSens in
  s ← for_range 0 nfwd (fun d s =>
         sens ← slot0 fwdSens d;
         seed ← slot0 fwdSeed d;
         x ← s !! seed;
         store_at sens (reshape x (shape n)) s) s;
  (* Adjoint sensitivities *)
  let nadj := length adjSeed in
  for_range 0 nadj (fun d s =>
    aseed ← slot0 adjSeed d;
    asens ← slot0 adjSens d;
    w ← s !! aseed;
    a ← s !! asens;
    s ← store_at asens (addToSum a (reshape w (mx_shape (dep n)))) s;
    store_at aseed mx_empty s) s.
End Reshape.
Arguments Node MX : clear implicits.
End Reshape.

(** ** SubRef (subref.hpp) *)

Module SubRef.
(** Modelled from the spec: the number of indices of a selector, that is
    of [start, start + step, ...] below [stop] (the selector's code is
    outside subref.hpp). *)
Definition slice_count (sl : Slice) : nat :=
  if decide (step sl = 0) then 0
  else (stop sl - start sl + step sl - 1) / step sl.

(** Modelled from the spec: the selector "enumerable as an ordered
    sequence of indices" (its code is outside subref.hpp). *)
Definition getAll (sl : Slice) : list nat :=
  (fun k => start sl + k * step sl) <$> seq 0 (slice_count sl).

(** The indices a selector addresses. *)
Definition selects (sl : Slice) (k : nat) : Prop :=
  step sl ≠ 0 ∧ start sl ≤ k < stop sl ∧ (k - start sl) mod step sl = 0.

(** Row-major order of coordinates: by row, then by column. *)
Definition row_major (p q : nat * nat) : Prop :=
  p.1 < q.1 ∨ (p.1 = q.1 ∧ p.2 < q.2).

(** Modelled from the spec: the rectangular block that the row selector
    [i] and the column selector [j] address, enumerated in the block's own
    row-major order (part of the body of SubRef that subref.hpp leaves
    out). *)
Definition block (i j : Slice) : list (nat * nat) :=
  r ← getAll i; c ← getAll j; [(r, c)].

(** Modelled from the spec: the index in [sp] of the structural nonzero at
    the coordinate [rc], if there is one (the pattern's code is outside
    subref.hpp). *)
Definition nz_index (sp : Sparsity) (rc : nat * nat) : option nat :=
  fst <$> list_find (fun p => p = rc) (nz_pos sp).

(** Modelled from the spec: the pattern's query "for a rectangular block,
    which positions of a larger pattern fall inside it" (its code is outside
    subref.hpp): for every coordinate of the block that is a structural
    nonzero of [sp], in block order, the index of that nonzero in [sp]. *)
Definition mapping (sp : Sparsity) (i j : Slice) : list nat :=
  omap (nz_index sp) (block i j).

(** Modelled from the spec: "the restriction of the dependency's pattern
    to that block", in block coordinates (the pattern's code is outside
    subref.hpp). *)
Definition sub_pattern (sp : Sparsity) (i j : Slice) : Sparsity :=
  let rows := getAll i in
  let cols := getAll j in
  mkSparsity (length rows) (length cols)
    (bi ← seq 0 (length rows);
     bj ← seq 0 (length cols);
     r ← option_list (rows !! bi);
     c ← option_list (cols !! bj);
     if decide (is_Some (nz_index sp (r, c))) then [(bi, bj)] else []).

(** Modelled from the spec: the gather on values, the values of the
    selected nonzeros in block order (the forward transform of SubRef, whose
    body subref.hpp leaves out). *)
Definition gather {R : Type} (zero : R) (idx : list nat) (u : list R) : list R :=
  (fun k => default zero (u !! k)) <$> idx.

(** Modelled from the spec: the scatter on values, the block's values
    "placed into a dependency-shaped zero-initialized value at the positions
    denoted by the two selectors" (the adjoint transform of SubRef, whose
    body subref.hpp leaves out). *)
Definition scatter {R : Type} (zero : R) (n : nat) (idx : list nat)
    (w : list R) : list R :=
  foldr (fun kx z => <[kx.1 := kx.2]> z) (replicate n zero) (zip idx w).

(** Modelled from the spec: the gather on buffers, [res[m] = arg[idx[m]]]
    for every [m] (the loop of [SubRef::evaluateGen], whose body subref.hpp
    leaves out); an index past the end of a buffer is undefined. *)
Fixpoint gather_loop {T : Type} (arg : list T) (idx : list nat)
    (res : list T) (m : nat) : option (list T) :=
  match idx with
  | [] => Some res
  | k :: idx' =>
      x ← arg !! k;
      _ ← res !! m;
      gather_loop arg idx' (<[m := x]> res) (S m)
  end.

Section SubRef.
Context {MX : Type} `{MXInterface MX}.

(** The node: the single dependency, the node's own pattern and the data
    members [i_] and [j_]. *)
Record Node : Type := mkNode {
  dep : MX;
  sparsity : Sparsity;
  i_ : Slice;
  j_ : Slice
}.

Definition nnz (n : Node) : nat := sp_nnz (sparsity n).

(** Modelled from the spec: the body of the constructor
    [SubRef::SubRef(const MX& x, const Slice& i, const Slice& j)], which
    subref.hpp only declares; a selector out of the axis bounds is a
    contract violation at construction. *)
Definition SubRef (x : MX) (i j : Slice) : except Node :=
  if decide (Forall (fun r => r < size1 (mx_sparsity x)) (getAll i)
             ∧ Forall (fun c => c < size2 (mx_sparsity x)) (getAll j))
  then Value (mkNode x (sub_pattern (mx_sparsity x) i j) i j)
  else Throw AssertionFailed.

(** Modelled from the spec: the body of [SubRef::evaluateGen<T, Mat>],
    which subref.hpp only declares.  The shared node contract of the spec
    gives it the in-place quick return, and the structural transform is the
    gather of the block. *)
Definition evaluateGen {T : Type} (n : Node) (input output : list addr)
    (h : gmap addr (Matrix T)) : option (gmap addr (Matrix T)) :=
  i0 ← input !! 0;
  o0 ← output !! 0;
  if decide (i0 = o0) then Some h else
  out ← h !! o0;
  inp ← h !! i0;
  res ← gather_loop (data inp) (mapping (mx_sparsity (dep n)) (i_ n) (j_ n))
          (data out) 0;
  Some (<[o0 := set_data out res]> h).

(** Modelled from the spec: the body of [SubRef::evaluateMX], which
    subref.hpp only declares.  Forward sensitivities apply the same gather
    to the seed; adjoint sensitivities accumulate the scattered seed into the
    dependency's slot and clear the seed. *)
Definition evaluateMX (n : Node) (input output : MXPtrV)
    (fwdSeed fwdSens adjSeed adjSens : MXPtrVV) (output_given : bool)
    (s : gmap addr MX) : option (gmap addr MX) :=
  i0 ← input !! 0;
  o0 ← output !! 0;
  if decide (i0 = o0) then Some s else
  s ← (if output_given then Some s
       else x ← s !! i0; store_at o0 (mx_sub x (i_ n) (j_ n)) s);
  let nfwd := length fwdSens in
  s ← for_range 0 nfwd (fun d s =>
         sens ← slot0 fwdSens d;
         seed ← slot0 fwdSeed d;
         x ← s !! seed;
         store_at sens (mx_sub x (i_ n) (j_ n)) s) s;
  let nadj := length adjSeed in
  for_range 0 nadj (fun d s =>
    aseed ← slot0 adjSeed d;
    asens ← slot0 adjSens d;
    w ← s !! aseed;
    a ← s !! asens;
    s ← store_at asens
          (addToSum a (mx_scatter (mx_sparsity (dep n)) (i_ n) (j_ n) w)) s;
    store_at aseed mx_empty s) s.
End SubRef.
Arguments Node MX : clear implicits.
End SubRef.

(** ** The common shape of the two symbolic-graph evaluations *)

(** Both [evaluateMX] bodies are one sweep that differs in three structural
    transforms only: the primal one, the one applied to forward seeds and
    the one applied to adjoint seeds. *)
Section Sweep.
Context {MX : Type} `{MXInterface MX}.
Variables primal forward adjoint : MX -> MX.

Definition fwd_body (fwdSeed fwdSens : MXPtrVV) (d : nat) (s : gmap addr MX) :
    option (gmap addr MX) :=
  sens ← slot0 fwdSens d;
  seed ← slot0 fwdSeed d;
  x ← s !! seed;
  store_at sens (forward x) s.

Definition adj_body (adjSeed adjSens : MXPtrVV) (d : nat) (s : gmap addr MX) :
    option (gmap addr MX) :=
  aseed ← slot0 adjSeed d;
  asens ← slot0 adjSens d;
  w ← s !! aseed;
  a ← s !! asens;
  s ← store_at asens (addToSum a (adjoint w)) s;
  store_at aseed mx_empty s.

Definition sweep (input output : MXPtrV)
    (fwdSeed fwdSens adjSeed adjSens : MXPtrVV) (output_given : bool)
    (s : gmap addr MX) : option (gmap addr MX) :=
  i0 ← input !! 0;
  o0 ← output !! 0;
  if decide (i0 = o0) then Some s else
  s ← (if output_given then Some s
       else x ← s !! i0; store_at o0 (primal x) s);
  s ← for_range 0 (length fwdSens) (fwd_body fwdSeed fwdSens) s;
  for_range 0 (length adjSeed) (adj_body adjSeed adjSens) s.
End Sweep.

(** The slots [v[0][0], ..., v[n-1][0]] of a pointer table. *)
Definition slots (v : MXPtrVV) (n : nat) (ps : list addr) : Prop :=
  length ps = n ∧ ∀ d p, ps !! d = Some p -> slot0 v d = Some p.

(** A call of [evaluateMX] that is not in place and on valid pointers: the
    input and output slots differ, every direction has its slot 0 in the
    four tables, and every slot used is an object of the store. *)
Record call_valid {MX : Type} (input output : MXPtrV)
    (fwdSeed fwdSens adjSeed adjSens : MXPtrVV) (s : gmap addr MX)
    (i0 o0 : addr) (fseeds fsens aseeds asens : list addr) : Prop := mkCallValid {
  ok_input : input !! 0 = Some i0;
  ok_output : output !! 0 = Some o0;
  ok_distinct : i0 ≠ o0;
  ok_fseeds : slots fwdSeed (length fwdSens) fseeds;
  ok_fsens : slots fwdSens (length fwdSens) fsens;
  ok_aseeds : slots adjSeed (length adjSeed) aseeds;
  ok_asens : slots adjSens (length adjSeed) asens;
  ok_alloc : Forall (fun p => is_Some (s !! p))
               (i0 :: o0 :: fseeds ++ fsens ++ aseeds ++ asens)
}.

(** Slots that do not overlap: every slot the call writes (the output, the
    forward sensitivities, the adjoint sensitivities and the adjoint seeds)
    is a different object, and no forward seed is one of the output or
    forward-sensitivity slots. *)
Definition separate (o0 : addr) (fseeds fsens aseeds asens : list addr) : Prop :=
  NoDup (o0 :: fsens ++ asens ++ aseeds)
  ∧ Forall (fun p => p ∉ o0 :: fsens) fseeds.

(** A valid call on separate slots. *)
Definition call_ok {MX : Type} (input output : MXPtrV)
    (fwdSeed fwdSens adjSeed adjSens : MXPtrVV) (s : gmap addr MX)
    (i0 o0 : addr) (fseeds fsens aseeds asens : list addr) : Prop :=
  call_valid input output fwdSeed fwdSens adjSeed adjSens s
    i0 o0 fseeds fsens aseeds asens
  ∧ separate o0 fseeds fsens aseeds asens.

(** What one forward direction and one adjoint direction do to the store
    they find: the sensitivity slot is assigned the transformed seed; the
    transformed adjoint seed is accumulated into the sensitivity slot and
    the seed slot is then cleared. *)
Definition forward_step {MX : Type} (forward : MX -> MX) (seed sens : addr)
    (t t' : gmap addr MX) : Prop :=
  ∃ x, t !! seed = Some x ∧ t' = <[sens := forward x]> t.

Definition adjoint_step {MX : Type} `{MXInterface MX} (adjoint : MX -> MX)
    (aseed asens : addr) (t t' : gmap addr MX) : Prop :=
  ∃ w a, t !! aseed = Some w ∧ t !! asens = Some a
         ∧ t' = <[aseed := mx_empty]> (<[asens := addToSum a (adjoint w)]> t).

(** ** Numeric meaning of expressions *)

(** Dot product over a scalar type with a zero, a sum and a product. *)
Definition dot {R : Type} (zero : R) (add mul : R -> R -> R) (u v : list R) : R :=
  foldr add zero (zip_with mul u v).

(** Modelled from the spec: what the expression operations of the interface
    mean on nonzero values under a fixed valuation of the symbols.  A
    reshape is the "identity permutation of the nonzero value sequence";
    [addToSum] into the empty expression is the summand; a sub-block is
    the gather of its block and its adjoint is the scatter into zeros. *)
Class MXSemantics (MX R : Type) `{MXInterface MX} (zero : R) : Type := {
  nonzeros : MX -> list R;
  nonzeros_reshape : ∀ x rc, nonzeros (reshape x rc) = nonzeros x;
  addToSum_empty : ∀ x, addToSum mx_empty x = x;
  nonzeros_sub : ∀ x i j,
    nonzeros (mx_sub x i j)
    = SubRef.gather zero (SubRef.mapping (mx_sparsity x) i j) (nonzeros x);
  nonzeros_scatter : ∀ sp i j w,
    nonzeros (mx_scatter sp i j w)
    = SubRef.scatter zero (sp_nnz sp) (SubRef.mapping sp i j) (nonzeros w)
}.

(** ** Constant expressions: an instance of the interface *)

Module ConstMX.
(** The pattern with every entry of an [r]-by-[c] matrix, row by row. *)
Definition dense (r c : nat) : Sparsity :=
  mkSparsity r c (i ← seq 0 r; j ← seq 0 c; [(i, j)]).

(** The same nonzeros under the extents [rc], entry [k] of the row-major
    numbering staying entry [k]. *)
Definition sp_reshape (sp : Sparsity) (rc : nat * nat) : Sparsity :=
  mkSparsity rc.1 rc.2
    ((fun p : nat * nat =>
        let k := p.1 * size2 sp + p.2 in (k / rc.2, k mod rc.2)) <$> nz_pos sp).

(** An expression without symbols is the integer matrix it evaluates
    to. *)
Definition add (a b : Matrix Z) : Matrix Z :=
  if decide (data a = []) then b
  else mkMatrix (m_sparsity a) (zip_with Z.add (data a) (data b)).

Global Instance interface : MXInterface (Matrix Z) := {|
  mx_empty := mkMatrix (mkSparsity 0 0 []) [];
  mx_sparsity := m_sparsity;
  reshape x rc := mkMatrix (sp_reshape (m_sparsity x) rc) (data x);
  addToSum := add;
  mx_sub x i j :=
    mkMatrix (SubRef.sub_pattern (m_sparsity x) i j)
      (SubRef.gather 0%Z (SubRef.mapping (m_sparsity x) i j) (data x));
  mx_scatter sp i j w :=
    mkMatrix sp (SubRef.scatter 0%Z (sp_nnz sp) (SubRef.mapping sp i j) (data w))
|}.

Global Instance semantics : MXSemantics (Matrix Z) Z 0%Z.
Proof. by refine {| nonzeros := data |}. Defined.

(** The dense matrix with the entries [v i j]. *)
Definition tabulate (r c : nat) (v : nat -> nat -> Z) : Matrix Z :=
  mkMatrix (dense r c) ((fun p : nat * nat => v p.1 p.2) <$> nz_pos (dense r c)).
End ConstMX.

(** ** Concrete nodes, buffers and calls *)

Module Example.
Import ConstMX.

(** A 2-by-3 value with the nonzeros 1..6, reshaped to 3-by-2. *)
Definition x23 : Matrix Z := mkMatrix (dense 2 3) [1; 2; 3; 4; 5; 6]%Z.
Definition reshape_node : Reshape.Node (Matrix Z) :=
  Reshape.mkNode x23 (dense 3 2).

(** Numeric buffers: the dependency's at address 1, the node's at 2. *)
Definition buffers : gmap addr (Matrix Z) :=
  {[ 1%Z := x23; 2%Z := mkMatrix (dense 3 2) [0; 0; 0; 0; 0; 0]%Z ]}.

(** Tag words of the two buffers during a sparsity sweep. *)
Definition tags : gmap addr (Matrix bvec_t) :=
  {[ 1%Z := mkMatrix (dense 2 3) [1; 0; 4; 0; 3; 8]%Z;
     2%Z := mkMatrix (dense 3 2) [2; 0; 4; 1; 5; 0]%Z ]}.

(** A dense 4-by-4 value with [v i j = 4 i + j] and the node selecting
    rows [1:3) and columns [0:2). *)
Definition x44 : Matrix Z :=
  tabulate 4 4 (fun i j => (4 * Z.of_nat i + Z.of_nat j)%Z).
Definition rows13 : Slice := mkSlice 1 3 1.
Definition cols02 : Slice := mkSlice 0 2 1.
Definition subref_node : SubRef.Node (Matrix Z) :=
  SubRef.mkNode x44 (SubRef.sub_pattern (dense 4 4) rows13 cols02)
    rows13 cols02.
Definition subref_buffers : gmap addr (Matrix Z) :=
  {[ 1%Z := x44;
     2%Z := mkMatrix (SubRef.sub_pattern (dense 4 4) rows13 cols02)
              [0; 0; 0; 0]%Z ]}.

(** Expression slots of a call with two forward and two adjoint
    directions: input 10, output 11, forward seeds 20 and 22, forward
    sensitivities 21 and 23, adjoint seeds 30 and 32, adjoint
    sensitivities 31 and 33. *)
Definition input : MXPtrV := [10%Z].
Definition output : MXPtrV := [11%Z].
Definition fwdSeed : MXPtrVV := [[20%Z]; [22%Z]].
Definition fwdSens : MXPtrVV := [[21%Z]; [23%Z]].
Definition adjSeed : MXPtrVV := [[30%Z]; [32%Z]].
Definition adjSens : MXPtrVV := [[31%Z]; [33%Z]].

Definition reshape_slots : gmap addr (Matrix Z) :=
  {[ 10%Z := x23; 11%Z := mx_empty;
     20%Z := mkMatrix (dense 2 3) [1; 0; 0; 2; 0; 3]%Z;
     21%Z := mx_empty;
     22%Z := mkMatrix (dense 2 3) [0; 1; 1; 0; 5; 0]%Z;
     23%Z := mx_empty;
     30%Z := mkMatrix (dense 3 2) [7; 0; 2; 0; 1; 4]%Z;
     31%Z := mkMatrix (dense 2 3) [1; 1; 1; 1; 1; 1]%Z;
     32%Z := mkMatrix (dense 3 2) [0; 9; 0; 6; 0; 3]%Z;
     33%Z := mx_empty ]}.

Definition subref_slots : gmap addr (Matrix Z) :=
  {[ 10%Z := x44; 11%Z := mx_empty;
     20%Z := tabulate 4 4 (fun i j => (Z.of_nat i + 2 * Z.of_nat j)%Z);
     21%Z := mx_empty;
     22%Z := tabulate 4 4 (fun i j => (3 * Z.of_nat i - Z.of_nat j)%Z);
     23%Z := mx_empty;
     30%Z := mkMatrix (SubRef.sub_pattern (dense 4 4) rows13 cols02)
               [7; 2; 1; 4]%Z;
     31%Z := mx_empty;
     32%Z := mkMatrix (SubRef.sub_pattern (dense 4 4) rows13 cols02)
               [3; 0; 5; 6]%Z;
     33%Z := mx_empty ]}.
End Example.

(** ** Output streams *)

(** The insertions of [std::ostream] that code generation calls.  What an
    insertion appends depends on the state of the stream (the base integers
    are written in, sign and base prefixes, width and fill, the locale,
    whether the stream is good), and that is code of the C++ library, not of
    the repository: an interface. *)
Class OStream (S : Type) : Type := {
  (** [stream << x] for a string literal or a [std::string] *)
  put_string : S -> string -> S;
  (** [stream << k] for an [int] *)
  put_int : S -> Z -> S;
  (** [stream << endl] *)
  put_endl : S -> S
}.

(** ** Reshape: textual rendering and code generation (reshape.cpp) *)

Module ReshapeText.
(** [std::endl]: the newline character (the flush of the stream has no
    part in the model). *)
Definition endl : string := String (Ascii.ascii_of_nat 10) EmptyString.

(** [Reshape::printPart]: the stream is the text written to it so far. *)
Definition printPart (stream : string) (part : Z) : string :=
  if decide (part = 0%Z) then stream +:+ "reshape("
  else stream +:+ ")".

Section generate.
Context {MX : Type} `{MXInterface MX} {S : Type} `{OStream S}.

Local Notation "s << x" := (put_string s x) (at level 40, left associativity).
Local Notation "s <<# k" := (put_int s k) (at level 40, left associativity).

(** [Reshape::generateOperation]; [gen] is not used.  [nnz()] is an
    [int], inserted as the stream writes integers. *)
Definition generateOperation (n : Reshape.Node MX) (stream : S)
    (arg res : list string) : option S :=
  a0 ← arg !! 0;
  r0 ← res !! 0;
  (* Quick return if inplace *)
  if decide (a0 = r0) then Some stream else
  Some (put_endl
          (stream << "  for (i=0; i<" <<# Z.of_nat (Reshape.nnz n) << "; ++i) "
                  << r0 << "[i] = " << a0 << "[i];")).
End generate.
End ReshapeText.

(** ** Streams in a known state *)

(** A stream in the default formatting state of a new [std::ostream], and
    good: decimal integers without sign or base prefix, no padding, the
    classic locale.  Every insertion appends to the text of the stream, an
    integer as its decimal digits. *)
Class DefaultFormat (S : Type) `{OStream S} : Type := {
  contents : S -> string;
  contents_put_string : ∀ s x, contents (put_string s x) = contents s +:+ x;
  contents_put_int : ∀ s k, contents (put_int s k) = contents s +:+ pretty k;
  contents_put_endl : ∀ s, contents (put_endl s) = contents s +:+ ReshapeText.endl
}.

(** The stream that is its text and stays in the default state. *)
Module TextStream.
Global Instance stream : OStream string := {|
  put_string s x := s +:+ x;
  put_int s k := s +:+ pretty k;
  put_endl s := s +:+ ReshapeText.endl
|}.

Global Instance default : DefaultFormat string.
Proof. by refine {| contents := id |}. Defined.
End TextStream.

(** A stream after [stream << std::hex]: an [int] is written in base 16,
    in lower case and without prefix, a negative one as the 32-bit two's
    complement. *)
Module HexStream.
Record t : Type := mk { text : string }.

Definition hex (k : Z) : string :=
  match (k mod 2 ^ 32)%Z with
  | Zpos p => HexString.Raw.of_pos p ""
  | _ => "0"
  end.

Global Instance stream : OStream t := {|
  put_string s x := mk (text s +:+ x);
  put_int s k := mk (text s +:+ hex k);
  put_endl s := mk (text s +:+ ReshapeText.endl)
|}.
End HexStream.

(** ** The statement that code generation emits *)

(** The C that [generateOperation] can emit is nothing, or one statement
    [for (i=0; i<bound; ++i) dst[i] = src[i];] on a line of its own.  This
    fragment of C is given its meaning here: the text is read back into the
    loop it denotes, and the loop is run on the buffers its names are bound
    to; reading or writing past the end of a buffer is undefined. *)
Module GeneratedC.
Record CopyLoop : Type := mkCopyLoop {
  bound : nat;
  dst : string;
  src : string
}.

(** The text of a loop, with the bound as a decimal constant. *)
Definition render (c : CopyLoop) : string :=
  "  for (i=0; i<" +:+ pretty (Z.of_nat (bound c)) +:+ "; ++i) "
  +:+ dst c +:+ "[i] = " +:+ src c +:+ "[i];" +:+ ReshapeText.endl.

(** [text] without its prefix [p] *)
Fixpoint strip (p text : string) : option string :=
  match p, text with
  | EmptyString, _ => Some text
  | String a p', String b text' =>
      if decide (a = b) then strip p' text' else None
  | String _ _, EmptyString => None
  end.

(** The longest prefix of [text] made of characters in [f], and the rest. *)
Fixpoint span (f : Ascii.ascii -> bool) (text : string) : string * string :=
  match text with
  | String a text' =>
      if f a then let '(x, rest) := span f text' in (String a x, rest)
      else (EmptyString, text)
  | EmptyString => (EmptyString, EmptyString)
  end.

(** [rest] does not go on with a character in [f]. *)
Definition stops (f : Ascii.ascii -> bool) (rest : string) : Prop :=
  match rest with
  | String a _ => f a = false
  | EmptyString => True
  end.

Fixpoint all_chars (f : Ascii.ascii -> bool) (text : string) : bool :=
  match text with
  | String a text' => f a && all_chars f text'
  | EmptyString => true
  end.

(** The value of a decimal digit: the characters 48 to 57. *)
Definition digit (a : Ascii.ascii) : option N :=
  let k := Ascii.N_of_ascii a in
  if decide (48 ≤ k ≤ 57)%N then Some (k - 48)%N else None.

Definition is_digit (a : Ascii.ascii) : bool :=
  bool_decide (is_Some (digit a)).

(** Letters, digits and the underscore. *)
Definition is_ident_char (a : Ascii.ascii) : bool :=
  let k := Ascii.nat_of_ascii a in
  ((65 <=? k) && (k <=? 90)) || ((97 <=? k) && (k <=? 122))
  || is_digit a || (k =? 95).

Definition keywords : list string :=
  ["auto"; "break"; "case"; "char"; "const"; "continue"; "default"; "do";
   "double"; "else"; "enum"; "extern"; "float"; "for"; "goto"; "if"; "int";
   "long"; "register"; "return"; "short"; "signed"; "sizeof"; "static";
   "struct"; "switch"; "typedef"; "union"; "unsigned"; "void"; "volatile";
   "while"].

(** An array name of the fragment: an identifier that is no keyword and is
    not the loop variable [i]. *)
Definition is_name (x : string) : bool :=
  match x with
  | String a _ =>
      negb (is_digit a) && all_chars is_ident_char x
      && bool_decide (x ∉ keywords) && bool_decide (x ≠ "i")
  | EmptyString => false
  end.

Fixpoint read_digits (text : string) (acc : N) : N * string :=
  match text with
  | String a text' =>
      match digit a with
      | Some d => read_digits text' (acc * 10 + d)%N
      | None => (acc, text)
      end
  | EmptyString => (acc, text)
  end.

Definition starts_with_digit (text : string) : bool :=
  match text with
  | String a _ => is_digit a
  | EmptyString => false
  end.

(** A decimal constant at the head of [text], and the rest: digits, the
    first of which is [0] only when it is the only one (a constant with a
    leading zero is octal in C and is not in the fragment). *)
Definition read_decimal (text : string) : option (N * string) :=
  match text with
  | String a text' =>
      d ← digit a;
      if decide (d = 0%N) then
        if starts_with_digit text' then None else Some (0%N, text')
      else Some (read_digits text 0)
  | EmptyString => None
  end.

(** The loop that a text of the fragment denotes. *)
Definition parse (text : string) : option CopyLoop :=
  t ← strip "  for (i=0; i<" text;
  '(k, t) ← read_decimal t;
  t ← strip "; ++i) " t;
  let '(d, t) := span is_ident_char t in
  t ← strip "[i] = " t;
  let '(s, t) := span is_ident_char t in
  t ← strip "[i];" t;
  if decide (t = ReshapeText.endl ∧ is_name d ∧ is_name s) then
    Some (mkCopyLoop (N.to_nat k) d s)
  else None.

(** One iteration, [dst[i] = src[i]], on the buffers at [d] and [s]. *)
Definition assign {T : Type} (d s : addr) (i : nat) (h : gmap addr (Matrix T)) :
    option (gmap addr (Matrix T)) :=
  msrc ← h !! s;
  x ← data msrc !! i;
  mdst ← h !! d;
  _ ← data mdst !! i;
  Some (<[d := set_data mdst (<[i := x]> (data mdst))]> h).

(** What a loop does when run with its two names bound to buffers by
    [env]. *)
Definition run {T : Type} (c : CopyLoop) (env : string -> option addr)
    (h : gmap addr (Matrix T)) : option (gmap addr (Matrix T)) :=
  d ← env (dst c);
  s ← env (src c);
  for_range 0 (bound c) (assign d s) h.

(** What an emitted text does: nothing when nothing was emitted, and
    otherwise what the loop it denotes does. *)
Definition exec {T : Type} (text : string) (env : string -> option addr)
    (h : gmap addr (Matrix T)) : option (gmap addr (Matrix T)) :=
  if decide (text = "") then Some h else
  c ← parse text;
  run c env h.
End GeneratedC.

(** ** The layout of a store of matrices *)

(** Two stores hold matrices at the same addresses, with the same patterns
    and the same numbers of stored values. *)
Definition same_layout {T : Type} (h h' : gmap addr (Matrix T)) : Prop :=
  ∀ p, match h !! p, h' !! p with
       | Some m, Some m' =>
           m_sparsity m = m_sparsity m' ∧ length (data m) = length (data m')
       | None, None => True
       | _, _ => False
       end.

(** Every stored word of a store of tag buffers is a 64-bit word. *)
Definition words_in_range (h : gmap addr (Matrix bvec_t)) : Prop :=
  ∀ p m, h !! p = Some m -> Forall (fun w => (0 <= w < 2 ^ 64)%Z) (data m).

(** ** The rocket model of the integrator test (sundials_testing.cpp) *)

Module Rocket.
(** [p[i] = x] on a C array *)
Definition write {A : Type} (l : list A) (i : nat) (x : A) : option (list A) :=
  _ ← l !! i; Some (<[i := x]> l).

Section Rocket.
(** The arithmetic of [double] is left open: the subtraction, product,
    quotient and negation of the machine and the two literals. *)
Context {double : Type}.
Context (sub mul div : double -> double -> double) (neg : double -> double).
Context (lit_0_02 lit_0_01 : double).
(** [dae_res_c]: the DAE residual in plain C. *)
Definition dae_res_c (tt : double) (yy yydot pp res : list double) :
    option (list double) :=
  (* Get the arguments *)
  s ← yy !! 0; v ← yy !! 1; m ← yy !! 2;
  u ← pp !! 0;
  sdot ← yydot !! 0; vdot ← yydot !! 1; mdot ← yydot !! 2;
  (* Calculate the DAE residual *)
  res ← write res 0 (sub sdot v);
  res ← write res 1 (sub vdot (div (sub u (mul (mul lit_0_02 v) v)) m));
  write res 2 (sub mdot (mul (mul (neg lit_0_01) u) u)).

(** [ode_rhs_c]: the ODE right-hand side in plain C. *)
Definition ode_rhs_c (tt : double) (yy pp rhs : list double) :
    option (list double) :=
  (* Get the arguments *)
  s ← yy !! 0; v ← yy !! 1; m ← yy !! 2;
  u ← pp !! 0;
  rhs ← write rhs 0 v;
  rhs ← write rhs 1 (div (sub u (mul (mul lit_0_02 v) v)) m);
  write rhs 2 (mul (mul (neg lit_0_01) u) u).

End Rocket.
End Rocket.

(** ** Further concrete data *)

Module MoreExamples.
Import ConstMX.

(** A third numeric buffer, at address 3, for a 6-by-1 node fed by the
    3-by-2 node of [Example]. *)
Definition column_node : Reshape.Node (Matrix Z) :=
  Reshape.mkNode (mkMatrix (dense 3 2) [0; 0; 0; 0; 0; 0]%Z) (dense 6 1).
Definition three_buffers : gmap addr (Matrix Z) :=
  {[ 1%Z := Example.x23;
     2%Z := mkMatrix (dense 3 2) [0; 0; 0; 0; 0; 0]%Z;
     3%Z := mkMatrix (dense 6 1) [9; 9; 9; 9; 9; 9]%Z ]}.

(** Tag words of three buffers: one argument with two results. *)
Definition three_tags : gmap addr (Matrix bvec_t) :=
  {[ 1%Z := mkMatrix (dense 2 3) [1; 0; 4; 0; 3; 8]%Z;
     2%Z := mkMatrix (dense 3 2) [2; 0; 4; 1; 5; 0]%Z;
     3%Z := mkMatrix (dense 6 1) [16; 0; 0; 32; 0; 1]%Z ]}.

(** The tags of [Example] after a backward sweep. *)
Definition swept_tags : gmap addr (Matrix bvec_t) :=
  {[ 1%Z := mkMatrix (dense 2 3) [3; 0; 4; 1; 7; 8]%Z;
     2%Z := mkMatrix (dense 3 2) [0; 0; 0; 0; 0; 0]%Z ]}.

(** The expression slots of [Example] with something left in the first
    forward sensitivity slot by an earlier sweep. *)
Definition stale_slots : gmap addr (Matrix Z) :=
  <[21%Z := mkMatrix (dense 3 2) [5; 5; 5; 5; 5; 5]%Z]> Example.reshape_slots.

(** The 4-by-4 value of [Example] reshaped to 2-by-8: a node with sixteen
    nonzeros. *)
Definition wide_node : Reshape.Node (Matrix Z) :=
  Reshape.mkNode Example.x44 (dense 2 8).

(** The names of generated code: [a] is the buffer at 1, [r] the one
    at 2. *)
Definition names (x : string) : option addr :=
  if decide (x = "a") then Some 1%Z
  else if decide (x = "r") then Some 2%Z
  else None.

(** The rocket functions over the rationals. *)
Definition Q : Type := QArith_base.Q.
Definition q (n : Z) (d : positive) : Q := QArith_base.Qmake n d.
Definition dae_res_c :=
  Rocket.dae_res_c QArith_base.Qminus QArith_base.Qmult QArith_base.Qdiv
    QArith_base.Qopp (q 2 100) (q 1 100).
Definition ode_rhs_c :=
  Rocket.ode_rhs_c QArith_base.Qminus QArith_base.Qmult QArith_base.Qdiv
    QArith_base.Qopp (q 2 100) (q 1 100).
End MoreExamples.

(** * Properties *)

(** ** Loops and copies *)

Lemma for_range_inv {S : Type} (I : nat -> S -> Prop) body from count (s : S) :
  I from s ->
  (∀ d t, from ≤ d < from + count -> I d t ->
     ∃ t', body d t = Some t' ∧ I (Datatypes.S d) t') ->
  ∃ s', for_range from count body s = Some s' ∧ I (from + count) s'.
Proof.
  revert from s. induction count as [|c IH]; intros from s Hs Hstep.
  - exists s. by rewrite Nat.add_0_r.
  - destruct (Hstep from s) as (t & Ht & HI); [lia | done |].
    destruct (IH (Datatypes.S from) t) as (s' & Hs' & HI'); [done | |].
    + intros d u Hd Hu. apply Hstep; [lia | done].
    + exists s'. simpl. rewrite Ht. simpl. split; [done |].
      by replace (from + Datatypes.S c) with (Datatypes.S from + c) by lia.
Qed.

Lemma for_range_trace {S : Type} (body : nat -> S -> option S) count :
  ∀ from (s s' : S),
  for_range from count body s = Some s' ->
  ∃ ts, length ts = Datatypes.S count
    ∧ ts !! 0 = Some s ∧ ts !! count = Some s'
    ∧ ∀ k, k < count ->
        ∃ t t', ts !! k = Some t ∧ ts !! Datatypes.S k = Some t'
                ∧ body (from + k) t = Some t'.
Proof.
  induction count as [|c IH]; intros from s s' Hrun; simpl in Hrun.
  - injection Hrun as <-. exists [s]. repeat split; try done. intros; lia.
  - destruct (body from s) as [t1|] eqn:Hbody; [|done]. simpl in Hrun.
    destruct (IH _ _ _ Hrun) as (ts & Hlen & H0 & Hc & Hstep).
    exists (s :: ts). simpl. rewrite Hlen. repeat split; try done.
    intros [|k] Hk.
    + exists s, t1. rewrite Nat.add_0_r. by repeat split.
    + destruct (Hstep k) as (t & t' & Ht & Ht' & Hb); [lia|].
      exists t, t'. repeat split; try done.
      by replace (from + Datatypes.S k) with (Datatypes.S from + k) by lia.
Qed.

Lemma copy_spec {T : Type} (arg : list T) count : ∀ first res d_first,
  first + count ≤ length arg ->
  d_first + count ≤ length res ->
  copy arg first count res d_first
  = Some (take d_first res ++ take count (drop first arg)
          ++ drop (d_first + count) res).
Proof.
  induction count as [|c IH]; intros first res d Harg Hres.
  - simpl. by rewrite Nat.add_0_r, take_drop.
  - destruct (lookup_lt_is_Some_2 arg first) as [x Hx]; [lia|].
    destruct (lookup_lt_is_Some_2 res d) as [y Hy]; [lia|].
    simpl. rewrite Hx, Hy. simpl.
    rewrite IH by (rewrite ?length_insert; lia).
    f_equal.
    rewrite (drop_S arg x first Hx). simpl.
    rewrite drop_insert_lt by lia.
    rewrite (take_S_r (<[d:=x]> res) d x)
      by (apply list_lookup_insert_eq; lia).
    rewrite take_insert_ge by lia.
    rewrite <- app_assoc. simpl.
    by replace (d + Datatypes.S c) with (Datatypes.S d + c) by lia.
Qed.

Lemma copy_front {T : Type} (arg res : list T) n :
  n ≤ length arg -> n ≤ length res ->
  copy arg 0 n res 0 = Some (take n arg ++ drop n res).
Proof. intros. by rewrite copy_spec. Qed.

Lemma bwd_loop_spec (arg res : list bvec_t) :
  length arg ≤ length res ->
  for_range 0 (length arg) Reshape.bwd_step (arg, res)
  = Some (zip_with Z.lor arg (take (length arg) res),
          replicate (length arg) 0%Z ++ drop (length arg) res).
Proof.
  intros Hlen.
  pose (I := fun (k : nat) (st : list bvec_t * list bvec_t) =>
    length st.1 = length arg ∧ length st.2 = length res ∧
    ∀ j, (j < k -> st.1 !! j = zip_with Z.lor arg res !! j ∧ st.2 !! j = Some 0%Z)
       ∧ (k ≤ j -> st.1 !! j = arg !! j ∧ st.2 !! j = res !! j)).
  destruct (for_range_inv I Reshape.bwd_step 0 (length arg) (arg, res))
    as ([a r] & Hrun & Ha & Hr & Hpos).
  - split; [done|]. split; [done|]. intros j. split; [lia | done].
  - intros k [a r] Hk (Ha & Hr & Hpos). simpl in *.
    destruct (Hpos k) as [_ [Hak Hrk]]; [lia|].
    destruct (lookup_lt_is_Some_2 arg k) as [x Hx]; [lia|].
    destruct (lookup_lt_is_Some_2 res k) as [y Hy]; [lia|].
    exists (<[k := Z.lor x y]> a, <[k := 0%Z]> r).
    unfold Reshape.bwd_step. simpl. rewrite Hak, Hrk, Hx, Hy. simpl.
    split; [done|]. unfold I. simpl. rewrite !length_insert.
    split; [done|]. split; [done|]. intros j. split; intros Hj.
    + destruct (decide (j = k)) as [->|Hne].
      * rewrite !list_lookup_insert_eq by lia.
        by rewrite lookup_zip_with, Hx, Hy.
      * rewrite !list_lookup_insert_ne by done. apply Hpos. lia.
    + rewrite !list_lookup_insert_ne by lia. apply Hpos. lia.
  - rewrite Hrun. f_equal. simpl in *. f_equal.
    + apply list_eq. intros j. destruct (decide (j < length arg)) as [Hj|Hj].
      * destruct (Hpos j) as [[-> _] _]; [lia|].
        rewrite !lookup_zip_with. destruct (arg !! j); [|done]. simpl.
        by rewrite lookup_take_lt.
      * rewrite !lookup_ge_None_2; [done | |lia].
        rewrite length_zip_with, length_take. lia.
    + apply list_eq. intros j. destruct (decide (j < length arg)) as [Hj|Hj].
      * destruct (Hpos j) as [[_ ->] _]; [lia|].
        rewrite lookup_app_l by (rewrite length_replicate; lia).
        symmetry. by apply lookup_replicate_2.
      * destruct (Hpos j) as [_ [_ ->]]; [lia|].
        rewrite lookup_app_r by (rewrite length_replicate; lia).
        rewrite length_replicate, lookup_drop. f_equal. lia.
Qed.

(** ** Reshape: construction, numeric evaluation, sparsity propagation *)

Section ReshapeNumeric.
  Context {MX : Type} `{MXInterface MX}.
  Implicit Types (n : Reshape.Node MX) (input output : list addr).

(** A tag word stays a 64-bit word under [|=]: the backward loop needs no
    wrap-around. *)
Lemma bvec_lor_range (a r : bvec_t) :
  (0 <= a < 2 ^ 64)%Z -> (0 <= r < 2 ^ 64)%Z -> (0 <= Z.lor a r < 2 ^ 64)%Z.
Proof.
  intros [Ha0 Ha] [Hr0 Hr].
  assert (0 <= Z.lor a r)%Z as H0 by by apply Z.lor_nonneg.
  split; [done|].
  destruct (decide (Z.lor a r = 0%Z)) as [->|Hne]; [done|].
  apply Z.log2_lt_pow2; [lia|].
  rewrite Z.log2_lor by done.
  apply Z.max_lub_lt.
  - destruct (decide (a = 0%Z)) as [->|?]; [done|]. apply Z.log2_lt_pow2; lia.
  - destruct (decide (r = 0%Z)) as [->|?]; [done|]. apply Z.log2_lt_pow2; lia.
Qed.

(** The buffers of a constructed node have the same length: the
    dependency's holds [nnz(x)] values, the node's own [nnz(sp)], and the
    constructor has asserted the two counts equal. *)
Lemma Reshape_buffers_same_length {T : Type} (x : MX) (sp : Sparsity) n
    (inp out : Matrix T) :
  Reshape.Reshape x sp = Value n ->
  length (data inp) = mx_nnz x -> length (data out) = Reshape.nnz n ->
  length (data inp) = length (data out)
  ∧ Reshape.nnz n = length (data inp).
Proof.
  unfold Reshape.Reshape. case_decide as Hnnz; [|done].
  intros [= <-] Hinp Hout. unfold Reshape.nnz in *. simpl in *. lia.
Qed.

(** C4.  Constructing a Reshape node from [x] and [sp] throws the
    assertion failure, and builds no node, whenever the nonzero counts of
    [x] and [sp] differ; when they are equal it returns a node whose
    dependency is [x] and whose own sparsity is exactly [sp]. *)
Theorem Reshape_construction (x : MX) (sp : Sparsity) :
  (mx_nnz x ≠ sp_nnz sp -> Reshape.Reshape x sp = Throw AssertionFailed)
  ∧ (mx_nnz x = sp_nnz sp ->
     ∃ n, Reshape.Reshape x sp = Value n
          ∧ Reshape.sparsity n = sp ∧ Reshape.dep n = x).
Proof.
  unfold Reshape.Reshape. split; intros Hnnz; case_decide; try done.
  by eexists.
Qed.

(** C3.  With distinct input and output buffers that hold at least
    [nnz] values each, evaluateGen (so evaluateD and evaluateSX alike)
    returns, and the store afterwards differs from the one before in the
    output matrix only: its first [nnz] values are the first [nnz] values
    of the input buffer in the same order, the values after them and the
    matrix's pattern are kept, and every other matrix, the input included,
    is unchanged. *)
Theorem Reshape_evaluateGen_copies {T : Type} n input output
    (h : gmap addr (Matrix T)) i0 o0 inp out :
  input !! 0 = Some i0 -> output !! 0 = Some o0 -> i0 ≠ o0 ->
  h !! i0 = Some inp -> h !! o0 = Some out ->
  Reshape.nnz n ≤ length (data inp) -> Reshape.nnz n ≤ length (data out) ->
  ∃ h', Reshape.evaluateGen n input output h = Some h'
    ∧ h' !! o0 = Some (mkMatrix (m_sparsity out)
                         (take (Reshape.nnz n) (data inp)
                          ++ drop (Reshape.nnz n) (data out)))
    ∧ h' !! i0 = Some inp
    ∧ ∀ p, p ≠ o0 -> h' !! p = h !! p.
Proof.
  intros Hi Ho Hne Hinp Hout Hli Hlo.
  unfold Reshape.evaluateGen. rewrite Hi, Ho. simpl.
  rewrite decide_False by done. rewrite Hout, Hinp. simpl.
  rewrite copy_front by done. simpl. eexists. split; [done|].
  split; [by rewrite lookup_insert_eq|].
  split; [by rewrite lookup_insert_ne|].
  intros p Hp. by rewrite lookup_insert_ne.
Qed.

(** C5.  When the output pointer equals the input pointer, evaluateGen
    (so evaluateD and evaluateSX alike) returns at once with the store it
    was given: no matrix is dereferenced (the call returns even on a
    pointer without an object behind it) and none is changed. *)
Theorem Reshape_evaluateGen_inplace {T : Type} n input output
    (h : gmap addr (Matrix T)) p :
  input !! 0 = Some p -> output !! 0 = Some p ->
  Reshape.evaluateGen n input output h = Some h.
Proof.
  intros Hi Ho. unfold Reshape.evaluateGen. rewrite Hi, Ho. simpl.
  by rewrite decide_True.
Qed.

(** C7.  With distinct input and output tag buffers of the same length
    (as the buffers of a constructed node are), forward sparsity propagation
    returns, and afterwards the output's tag words are the input's tag
    words, element for element; the input matrix and every other matrix are
    unchanged. *)
Theorem Reshape_propagateSparsity_forward n input output
    (h : gmap addr (Matrix bvec_t)) i0 o0 inp out :
  input !! 0 = Some i0 -> output !! 0 = Some o0 -> i0 ≠ o0 ->
  h !! i0 = Some inp -> h !! o0 = Some out ->
  length (data inp) = length (data out) ->
  ∃ h', Reshape.propagateSparsity n input output true h = Some h'
    ∧ h' !! o0 = Some (mkMatrix (m_sparsity out) (data inp))
    ∧ h' !! i0 = Some inp
    ∧ ∀ p, p ≠ o0 -> h' !! p = h !! p.
Proof.
  intros Hi Ho Hne Hinp Hout Hlen.
  unfold Reshape.propagateSparsity. rewrite Hi, Ho. simpl.
  rewrite decide_False by done. rewrite Hout, Hinp. simpl.
  rewrite copy_front by lia. simpl.
  rewrite firstn_all, Hlen, drop_all, app_nil_r.
  eexists. split; [done|].
  split; [by rewrite lookup_insert_eq|].
  split; [by rewrite lookup_insert_ne|].
  intros p Hp. by rewrite lookup_insert_ne.
Qed.

(** C8.  With distinct input and output tag buffers of the same length
    (as the buffers of a constructed node are), backward sparsity
    propagation returns, and afterwards the dependency's tag word at every
    position is the bitwise OR of its previous value with the output's tag
    word at that position, every output tag word is zero, and every other
    matrix is unchanged. *)
Theorem Reshape_propagateSparsity_backward n input output
    (h : gmap addr (Matrix bvec_t)) i0 o0 inp out :
  input !! 0 = Some i0 -> output !! 0 = Some o0 -> i0 ≠ o0 ->
  h !! i0 = Some inp -> h !! o0 = Some out ->
  length (data inp) = length (data out) ->
  ∃ h', Reshape.propagateSparsity n input output false h = Some h'
    ∧ h' !! i0 = Some (mkMatrix (m_sparsity inp)
                         (zip_with Z.lor (data inp) (data out)))
    ∧ h' !! o0 = Some (mkMatrix (m_sparsity out)
                         (replicate (length (data out)) 0%Z))
    ∧ ∀ p, p ≠ i0 -> p ≠ o0 -> h' !! p = h !! p.
Proof.
  intros Hi Ho Hne Hinp Hout Hlen.
  unfold Reshape.propagateSparsity. rewrite Hi, Ho. simpl.
  rewrite decide_False by done. rewrite Hout, Hinp. simpl.
  rewrite bwd_loop_spec by lia. simpl.
  rewrite Hlen, firstn_all, drop_all, app_nil_r.
  eexists. split; [done|].
  split; [by rewrite lookup_insert_ne, lookup_insert_eq|].
  split; [by rewrite lookup_insert_eq|].
  intros p Hpi Hpo. by rewrite !lookup_insert_ne.
Qed.

(** C10.  When the input slot pointer equals the output slot pointer,
    evaluateMX returns at once with the store it was given, whatever
    [output_given] and the seed and sensitivity tables are: the output
    expression is not written, no forward sensitivity is written, nothing
    is accumulated into an adjoint sensitivity and no adjoint seed is
    cleared. *)
Theorem Reshape_evaluateMX_inplace n (input output : MXPtrV)
    (fwdSeed fwdSens adjSeed adjSens : MXPtrVV) (output_given : bool)
    (s : gmap addr MX) p :
  input !! 0 = Some p -> output !! 0 = Some p ->
  Reshape.evaluateMX n input output fwdSeed fwdSens adjSeed adjSens
    output_given s = Some s.
Proof.
  intros Hi Ho. unfold Reshape.evaluateMX. rewrite Hi, Ho. simpl.
  by rewrite decide_True.
Qed.

End ReshapeNumeric.

(** ** The sensitivity sweep on separated slots *)

Lemma store_at_Some {V : Type} (p : addr) (x : V) (s : gmap addr V) :
  is_Some (s !! p) -> store_at p x s = Some (<[p := x]> s).
Proof. intros [y Hy]. unfold store_at. by rewrite Hy. Qed.

Lemma slots_lookup v n ps d :
  slots v n ps -> d < n -> ∃ p, ps !! d = Some p ∧ slot0 v d = Some p.
Proof.
  intros [Hlen Hs] Hd.
  destruct (lookup_lt_is_Some_2 ps d) as [p Hp]; [lia|]. eauto.
Qed.

Lemma not_in_take_index (l : list addr) d p r i :
  NoDup l -> l !! d = Some p -> l !! i = Some r -> i < d -> r ≠ p.
Proof.
  intros Hnd Hp Hr Hi ->. pose proof (NoDup_lookup _ _ _ _ Hnd Hp Hr). lia.
Qed.

Section SweepProps.
Context {MX : Type} `{MXInterface MX}.

Lemma fwd_loop_spec (forward : MX -> MX) (fwdSeed fwdSens : MXPtrVV) fseeds fsens
    (t0 : gmap addr MX) :
  slots fwdSeed (length fwdSens) fseeds ->
  slots fwdSens (length fwdSens) fsens ->
  NoDup fsens ->
  Forall (fun p => p ∉ fsens) fseeds ->
  Forall (fun p => is_Some (t0 !! p)) (fseeds ++ fsens) ->
  ∃ t, for_range 0 (length fwdSens) (fwd_body forward fwdSeed fwdSens) t0
       = Some t
    ∧ (∀ r, r ∉ fsens -> t !! r = t0 !! r)
    ∧ (∀ d p q x, fseeds !! d = Some p -> fsens !! d = Some q ->
         t0 !! p = Some x -> t !! q = Some (forward x))
    ∧ (∀ r, is_Some (t0 !! r) -> is_Some (t !! r)).
Proof.
  intros Hseeds Hsens Hnd Hread Halloc.
  apply Forall_app in Halloc as [Haseed Hasens].
  rewrite Forall_forall in Hread, Haseed, Hasens.
  pose (I := fun (d : nat) (t : gmap addr MX) =>
    (∀ r, r ∉ take d fsens -> t !! r = t0 !! r)
    ∧ (∀ d' p q x, d' < d -> fseeds !! d' = Some p -> fsens !! d' = Some q ->
         t0 !! p = Some x -> t !! q = Some (forward x))
    ∧ (∀ r, is_Some (t0 !! r) -> is_Some (t !! r))).
  destruct (for_range_inv I (fwd_body forward fwdSeed fwdSens) 0
              (length fwdSens) t0) as (t & Hrun & Hfr & Hval & Hdom).
  - split; [done|]. split; [|done]. intros; lia.
  - intros d t [_ Hd] (Hfr & Hval & Hdom). simpl in Hd.
    destruct (slots_lookup _ _ _ d Hseeds Hd) as (p & Hp & Hp0).
    destruct (slots_lookup _ _ _ d Hsens Hd) as (q & Hq & Hq0).
    assert (Hpin : p ∈ fseeds) by by eapply list_elem_of_lookup_2.
    assert (Hqin : q ∈ fsens) by by eapply list_elem_of_lookup_2.
    destruct (Haseed p Hpin) as [x Hx].
    assert (Htp : t !! p = Some x).
    { rewrite Hfr; [done|]. intros Hin%elem_of_take.
      destruct Hin as (i & Hi & _). apply (Hread p Hpin).
      by eapply list_elem_of_lookup_2. }
    exists (<[q := forward x]> t). split.
    + unfold fwd_body. rewrite Hq0, Hp0. simpl. rewrite Htp. simpl.
      apply store_at_Some, Hdom, Hasens, Hqin.
    + split; [|split].
      * intros r Hr. rewrite (take_S_r _ _ _ Hq) in Hr.
        apply not_elem_of_app in Hr as [Hr1 Hr2].
        rewrite lookup_insert_ne; [by apply Hfr|].
        intros ->. apply Hr2. by apply list_elem_of_here.
      * intros d' p' q' x' Hd' Hp' Hq' Hx'.
        destruct (decide (d' = d)) as [->|Hne].
        -- rewrite Hp in Hp'. rewrite Hq in Hq'.
           injection Hp' as <-. injection Hq' as <-.
           rewrite Hx in Hx'. injection Hx' as <-.
           by rewrite lookup_insert_eq.
        -- rewrite lookup_insert_ne.
           ++ eapply Hval; [|done..]. lia.
           ++ apply not_eq_sym.
              eapply (not_in_take_index fsens d q q' d'); [done..|lia].
      * intros r Hr. apply lookup_insert_is_Some'. right. by apply Hdom.
  - exists t. split; [done|]. split; [|split; [|done]].
    + intros r Hr. apply Hfr. intros Hin%elem_of_take.
      destruct Hin as (i & Hi & _). apply Hr.
      by eapply list_elem_of_lookup_2.
    + intros d p q x Hp Hq Hx. eapply (Hval d); [|done..].
      apply lookup_lt_Some in Hq. destruct Hsens as [<- _]. simpl. lia.
Qed.

Lemma adj_loop_spec (adjoint : MX -> MX) (adjSeed adjSens : MXPtrVV) aseeds asens
    (u0 : gmap addr MX) :
  slots adjSeed (length adjSeed) aseeds ->
  slots adjSens (length adjSeed) asens ->
  NoDup (asens ++ aseeds) ->
  Forall (fun p => is_Some (u0 !! p)) (aseeds ++ asens) ->
  ∃ u, for_range 0 (length adjSeed) (adj_body adjoint adjSeed adjSens) u0
       = Some u
    ∧ (∀ r, r ∉ asens ++ aseeds -> u !! r = u0 !! r)
    ∧ (∀ d p q w a, aseeds !! d = Some p -> asens !! d = Some q ->
         u0 !! p = Some w -> u0 !! q = Some a ->
         u !! q = Some (addToSum a (adjoint w)) ∧ u !! p = Some mx_empty).
Proof.
  intros Hseeds Hsens Hnd Halloc.
  apply NoDup_app in Hnd as (Hnd_sens & Hdisj & Hnd_seeds).
  apply Forall_app in Halloc as [Haseed Hasens].
  rewrite Forall_forall in Haseed, Hasens.
  pose (J := fun (d : nat) (u : gmap addr MX) =>
    (∀ r, r ∉ take d asens ++ take d aseeds -> u !! r = u0 !! r)
    ∧ (∀ d' p q w a, d' < d -> aseeds !! d' = Some p -> asens !! d' = Some q ->
         u0 !! p = Some w -> u0 !! q = Some a ->
         u !! q = Some (addToSum a (adjoint w)) ∧ u !! p = Some mx_empty)
    ∧ (∀ r, is_Some (u0 !! r) -> is_Some (u !! r))).
  destruct (for_range_inv J (adj_body adjoint adjSeed adjSens) 0
              (length adjSeed) u0) as (u & Hrun & Hfr & Hval & Hdom).
  - split; [done|]. split; [|done]. intros; lia.
  - intros d u [_ Hd] (Hfr & Hval & Hdom). simpl in Hd.
    destruct (slots_lookup _ _ _ d Hseeds Hd) as (p & Hp & Hp0).
    destruct (slots_lookup _ _ _ d Hsens Hd) as (q & Hq & Hq0).
    assert (Hpin : p ∈ aseeds) by by eapply list_elem_of_lookup_2.
    assert (Hqin : q ∈ asens) by by eapply list_elem_of_lookup_2.
    assert (Hqp : q ≠ p) by (intros ->; by apply (Hdisj p)).
    destruct (Haseed p Hpin) as [w Hw]. destruct (Hasens q Hqin) as [a Ha].
    assert (Hfresh : ∀ r i, (asens !! i = Some r ∨ aseeds !! i = Some r) ->
              i < d -> r ≠ p ∧ r ≠ q).
    { intros r i [Hr|Hr] Hi; split.
      - intros ->. apply (Hdisj p); [|done]. by eapply list_elem_of_lookup_2.
      - by eapply (not_in_take_index asens d q r i).
      - by eapply (not_in_take_index aseeds d p r i).
      - intros ->. apply (Hdisj q); [done|]. by eapply list_elem_of_lookup_2. }
    assert (Hold : ∀ r, r = p ∨ r = q -> u !! r = u0 !! r).
    { intros r Hr. apply Hfr. intros Hin.
      apply elem_of_app in Hin as [Hin|Hin];
        apply elem_of_take in Hin as (i & Hi & Hlt);
        (destruct (Hfresh r i) as [? ?]; [auto|done|]);
        destruct Hr; done. }
    exists (<[p := mx_empty]> (<[q := addToSum a (adjoint w)]> u)). split.
    + unfold adj_body. rewrite Hp0, Hq0. simpl.
      rewrite (Hold p), (Hold q), Hw, Ha by auto. simpl.
      rewrite store_at_Some by (rewrite Hold, Ha; auto). simpl.
      apply store_at_Some. apply lookup_insert_is_Some'. right.
      rewrite Hold, Hw; auto.
    + split; [|split].
      * intros r Hr.
        rewrite (take_S_r _ _ _ Hq), (take_S_r _ _ _ Hp) in Hr.
        rewrite !not_elem_of_app in Hr.
        destruct Hr as [[Hr1 Hr2] [Hr3 Hr4]].
        rewrite !lookup_insert_ne.
        -- apply Hfr. by apply not_elem_of_app.
        -- intros ->. apply Hr2. by apply list_elem_of_here.
        -- intros ->. apply Hr4. by apply list_elem_of_here.
      * intros d' p' q' w' a' Hd' Hp' Hq' Hw' Ha'.
        destruct (decide (d' = d)) as [->|Hne].
        -- rewrite Hp in Hp'. rewrite Hq in Hq'.
           injection Hp' as <-. injection Hq' as <-.
           rewrite Hw in Hw'. rewrite Ha in Ha'.
           injection Hw' as <-. injection Ha' as <-.
           rewrite lookup_insert_ne, !lookup_insert_eq by done. done.
        -- assert (d' < d) as Hlt by lia.
           destruct (Hfresh q' d') as [? ?]; [auto|done|].
           destruct (Hfresh p' d') as [? ?]; [auto|done|].
           rewrite !lookup_insert_ne by done. by eapply Hval.
      * intros r Hr. apply lookup_insert_is_Some'. right.
        apply lookup_insert_is_Some'. right. by apply Hdom.
  - exists u. split; [done|]. split.
    + intros r Hr. apply Hfr. intros Hin. apply Hr.
      apply elem_of_app in Hin as [Hin|Hin];
        apply elem_of_take in Hin as (i & Hi & _); apply elem_of_app;
        [left|right]; by eapply list_elem_of_lookup_2.
    + intros d p q w a Hp Hq Hw Ha. eapply (Hval d); [|done..].
      apply lookup_lt_Some in Hq. destruct Hsens as [<- _]. simpl. lia.
Qed.
Lemma store_at_inv (p : addr) (x : MX) (t t' : gmap addr MX) :
  store_at p x t = Some t' -> t' = <[p := x]> t.
Proof.
  unfold store_at. destruct (t !! p); simpl; [|done]. by intros [= <-].
Qed.

Lemma fwd_body_step (forward : MX -> MX) (fwdSeed fwdSens : MXPtrVV)
    d seed sens (t t' : gmap addr MX) :
  fwd_body forward fwdSeed fwdSens d t = Some t' ->
  slot0 fwdSeed d = Some seed -> slot0 fwdSens d = Some sens ->
  forward_step forward seed sens t t'.
Proof.
  unfold fwd_body. intros Hrun Hseed Hsens.
  rewrite Hseed, Hsens in Hrun. simpl in Hrun.
  destruct (t !! seed) as [x|] eqn:Hx; [|done]. simpl in Hrun.
  exists x. split; [done|]. by apply store_at_inv.
Qed.

Lemma adj_body_step (adjoint : MX -> MX) (adjSeed adjSens : MXPtrVV)
    d aseed asens (t t' : gmap addr MX) :
  adj_body adjoint adjSeed adjSens d t = Some t' ->
  slot0 adjSeed d = Some aseed -> slot0 adjSens d = Some asens ->
  adjoint_step adjoint aseed asens t t'.
Proof.
  unfold adj_body. intros Hrun Hseed Hsens.
  rewrite Hseed, Hsens in Hrun. simpl in Hrun.
  destruct (t !! aseed) as [w|] eqn:Hw; [|done]. simpl in Hrun.
  destruct (t !! asens) as [a|] eqn:Ha; [|done]. simpl in Hrun.
  destruct (store_at asens _ t) as [t1|] eqn:Ht1; [|done]. simpl in Hrun.
  apply store_at_inv in Ht1 as ->. apply store_at_inv in Hrun as ->.
  by exists w, a.
Qed.

(** On valid pointers both loops return, whatever the slots share. *)
Lemma fwd_loop_returns (forward : MX -> MX) (fwdSeed fwdSens : MXPtrVV)
    fseeds fsens (t0 : gmap addr MX) :
  slots fwdSeed (length fwdSens) fseeds ->
  slots fwdSens (length fwdSens) fsens ->
  Forall (fun p => is_Some (t0 !! p)) (fseeds ++ fsens) ->
  ∃ t, for_range 0 (length fwdSens) (fwd_body forward fwdSeed fwdSens) t0
       = Some t
    ∧ ∀ r, is_Some (t0 !! r) -> is_Some (t !! r).
Proof.
  intros Hseeds Hsens Halloc.
  apply Forall_app in Halloc as [Haseed Hasens].
  rewrite Forall_forall in Haseed, Hasens.
  apply (for_range_inv
           (fun _ t => ∀ r, is_Some (t0 !! r) -> is_Some (t !! r))); [done|].
  intros d t [_ Hd] Hdom. simpl in Hd.
  destruct (slots_lookup _ _ _ d Hseeds Hd) as (p & Hp & Hp0).
  destruct (slots_lookup _ _ _ d Hsens Hd) as (q & Hq & Hq0).
  destruct (Hdom p) as [x Hx].
  { apply Haseed. by eapply list_elem_of_lookup_2. }
  exists (<[q := forward x]> t). split.
  - unfold fwd_body. rewrite Hq0, Hp0. simpl. rewrite Hx. simpl.
    apply store_at_Some, Hdom, Hasens. by eapply list_elem_of_lookup_2.
  - intros r Hr. apply lookup_insert_is_Some'. right. by apply Hdom.
Qed.

Lemma adj_loop_returns (adjoint : MX -> MX) (adjSeed adjSens : MXPtrVV)
    aseeds asens (u0 : gmap addr MX) :
  slots adjSeed (length adjSeed) aseeds ->
  slots adjSens (length adjSeed) asens ->
  Forall (fun p => is_Some (u0 !! p)) (aseeds ++ asens) ->
  ∃ u, for_range 0 (length adjSeed) (adj_body adjoint adjSeed adjSens) u0
       = Some u
    ∧ ∀ r, is_Some (u0 !! r) -> is_Some (u !! r).
Proof.
  intros Hseeds Hsens Halloc.
  apply Forall_app in Halloc as [Haseed Hasens].
  rewrite Forall_forall in Haseed, Hasens.
  apply (for_range_inv
           (fun _ u => ∀ r, is_Some (u0 !! r) -> is_Some (u !! r))); [done|].
  intros d u [_ Hd] Hdom. simpl in Hd.
  destruct (slots_lookup _ _ _ d Hseeds Hd) as (p & Hp & Hp0).
  destruct (slots_lookup _ _ _ d Hsens Hd) as (q & Hq & Hq0).
  destruct (Hdom p) as [w Hw].
  { apply Haseed. by eapply list_elem_of_lookup_2. }
  destruct (Hdom q) as [a Ha].
  { apply Hasens. by eapply list_elem_of_lookup_2. }
  exists (<[p := mx_empty]> (<[q := addToSum a (adjoint w)]> u)). split.
  - unfold adj_body. rewrite Hp0, Hq0. simpl. rewrite Hw, Ha. simpl.
    rewrite store_at_Some by eauto. simpl.
    apply store_at_Some, lookup_insert_is_Some'. eauto.
  - intros r Hr. apply lookup_insert_is_Some'. right.
    apply lookup_insert_is_Some'. right. by apply Hdom.
Qed.
End SweepProps.

Section SweepSpec.
Context {MX : Type} `{MXInterface MX}.

(** What a sweep leaves in the store when the call is valid and its slots
    are separate: the
    output slot (unless it was given), every forward sensitivity, every
    adjoint sensitivity and adjoint seed, in terms of the store before the
    call; all other slots are as before. *)
Lemma sweep_spec (primal forward adjoint : MX -> MX) (input output : MXPtrV)
    (fwdSeed fwdSens adjSeed adjSens : MXPtrVV) (output_given : bool)
    (s : gmap addr MX) i0 o0 fseeds fsens aseeds asens :
  call_ok input output fwdSeed fwdSens adjSeed adjSens s
    i0 o0 fseeds fsens aseeds asens ->
  ∃ s', sweep primal forward adjoint input output
          fwdSeed fwdSens adjSeed adjSens output_given s = Some s'
    ∧ (∀ x, s !! i0 = Some x ->
         s' !! o0 = if output_given then s !! o0 else Some (primal x))
    ∧ (∀ d p q x, fseeds !! d = Some p -> fsens !! d = Some q ->
         s !! p = Some x -> s' !! q = Some (forward x))
    ∧ (∀ d p q w a, aseeds !! d = Some p -> asens !! d = Some q ->
         s !! p = Some w -> s !! q = Some a ->
         s' !! q = Some (addToSum a (adjoint w)) ∧ s' !! p = Some mx_empty)
    ∧ (∀ r, r ∉ o0 :: fsens ++ asens ++ aseeds -> s' !! r = s !! r).
Proof.
  intros [[Hi Ho Hne Hfseeds Hfsens Haseeds Hasens Halloc] [Hnd Hread]].
  apply NoDup_cons in Hnd as [Ho_fresh Hnd].
  apply NoDup_app in Hnd as (Hnd_f & Hdisj & Hnd_a).
  rewrite !not_elem_of_app in Ho_fresh.
  destruct Ho_fresh as (Ho_fsens & Ho_asens & Ho_aseeds).
  rewrite !Forall_cons, !Forall_app in Halloc.
  destruct Halloc as ([x0 Hx0] & Hao & Haf & Has & Haa & Hab).
  rewrite Forall_forall in Hread, Haf, Has, Haa, Hab.
  (* the primal phase *)
  assert (∃ s1,
    (if output_given then Some s
     else x ← s !! i0; store_at o0 (primal x) s) = Some s1
    ∧ (∀ r, r ≠ o0 -> s1 !! r = s !! r)
    ∧ s1 !! o0 = (if output_given then s !! o0 else Some (primal x0))
    ∧ (∀ r, is_Some (s !! r) -> is_Some (s1 !! r)))
    as (s1 & Hs1 & Hs1_fr & Hs1_o & Hs1_dom).
  { destruct output_given.
    - exists s. done.
    - exists (<[o0 := primal x0]> s). rewrite Hx0. simpl.
      rewrite store_at_Some by done. split; [done|].
      split; [intros; by rewrite lookup_insert_ne|].
      split; [by rewrite lookup_insert_eq|].
      intros r Hr. apply lookup_insert_is_Some'. by right. }
  (* the forward loop *)
  destruct (fwd_loop_spec forward fwdSeed fwdSens fseeds fsens s1)
    as (t & Ht & Ht_fr & Ht_val & Ht_dom); [done | done | done | | |].
  { apply Forall_forall. intros p Hp. specialize (Hread p Hp).
    by apply not_elem_of_cons in Hread as [_ ?]. }
  { apply Forall_app. rewrite !Forall_forall.
    split; intros p Hp; apply Hs1_dom; auto. }
  (* the adjoint loop *)
  destruct (adj_loop_spec adjoint adjSeed adjSens aseeds asens t)
    as (u & Hu & Hu_fr & Hu_val); [done | done | done | |].
  { apply Forall_app. rewrite !Forall_forall.
    split; intros p Hp; apply Ht_dom, Hs1_dom; auto. }
  assert (Hadj_out : ∀ r, r ∈ asens ++ aseeds -> r ≠ o0 ∧ r ∉ fsens).
  { intros r Hr. split.
    - intros ->. apply elem_of_app in Hr as [?|?]; done.
    - intros Hin. by apply (Hdisj r). }
  exists u. unfold sweep. rewrite Hi, Ho. simpl.
  rewrite decide_False by done. rewrite Hs1. simpl. rewrite Ht. simpl.
  split; [done|]. split; [|split; [|split]].
  - intros x Hx. rewrite Hu_fr, Ht_fr, Hs1_o by (by rewrite ?not_elem_of_app).
    destruct output_given; [done|]. rewrite Hx0 in Hx. by injection Hx as ->.
  - intros d p q x Hp Hq Hx.
    assert (p ∈ fseeds) as Hpin by by eapply list_elem_of_lookup_2.
    assert (q ∈ fsens) as Hqin by by eapply list_elem_of_lookup_2.
    specialize (Hread p Hpin). apply not_elem_of_cons in Hread as [Hpo Hpf].
    rewrite Hu_fr by (intros Hin; by apply (Hdisj q)).
    eapply Ht_val; [done..|]. by rewrite Hs1_fr.
  - intros d p q w a Hp Hq Hw Ha.
    assert (p ∈ asens ++ aseeds) as Hpin.
    { apply elem_of_app. right. by eapply list_elem_of_lookup_2. }
    assert (q ∈ asens ++ aseeds) as Hqin.
    { apply elem_of_app. left. by eapply list_elem_of_lookup_2. }
    destruct (Hadj_out p Hpin) as [? ?]. destruct (Hadj_out q Hqin) as [? ?].
    eapply (Hu_val d); [done..| |]; by rewrite Ht_fr, Hs1_fr.
  - intros r Hr. apply not_elem_of_cons in Hr as [Hro Hr].
    apply not_elem_of_app in Hr as [Hrf Hra].
    by rewrite Hu_fr, Ht_fr, Hs1_fr.
Qed.

(** What a sweep does on valid pointers, whatever the slots share: it
    returns, and the stores [us] around the forward directions and [ts]
    around the adjoint directions are related step by step.  The store
    before the first forward direction is what the call without any
    direction returns; the store between the two loops is what the call
    without adjoint directions returns. *)
Lemma sweep_trace (primal forward adjoint : MX -> MX) (input output : MXPtrV)
    (fwdSeed fwdSens adjSeed adjSens : MXPtrVV) (output_given : bool)
    (s : gmap addr MX) i0 o0 fseeds fsens aseeds asens :
  call_valid input output fwdSeed fwdSens adjSeed adjSens s
    i0 o0 fseeds fsens aseeds asens ->
  ∃ s' (us ts : list (gmap addr MX)),
    sweep primal forward adjoint input output
      fwdSeed fwdSens adjSeed adjSens output_given s = Some s'
    ∧ us !! 0
      = sweep primal forward adjoint input output [] [] [] [] output_given s
    ∧ us !! length fwdSens
      = sweep primal forward adjoint input output
          fwdSeed fwdSens [] [] output_given s
    ∧ (∀ d seed sens,
         d < length fwdSens ->
         slot0 fwdSeed d = Some seed -> slot0 fwdSens d = Some sens ->
         ∃ t t', us !! d = Some t ∧ us !! S d = Some t'
                 ∧ forward_step forward seed sens t t')
    ∧ ts !! 0
      = sweep primal forward adjoint input output
          fwdSeed fwdSens [] [] output_given s
    ∧ ts !! length adjSeed = Some s'
    ∧ (∀ d aseed asens_d,
         d < length adjSeed ->
         slot0 adjSeed d = Some aseed -> slot0 adjSens d = Some asens_d ->
         ∃ t t', ts !! d = Some t ∧ ts !! S d = Some t'
                 ∧ adjoint_step adjoint aseed asens_d t t').
Proof.
  intros [Hi Ho Hne Hfseeds Hfsens Haseeds Hasens Halloc].
  rewrite !Forall_cons, !Forall_app in Halloc.
  destruct Halloc as ([x0 Hx0] & Hao & Haf & Has & Haa & Hab).
  rewrite Forall_forall in Haf, Has, Haa, Hab.
  assert (∃ s1,
    (if output_given then Some s
     else x ← s !! i0; store_at o0 (primal x) s) = Some s1
    ∧ (∀ r, is_Some (s !! r) -> is_Some (s1 !! r)))
    as (s1 & Hs1 & Hs1_dom).
  { destruct output_given.
    - by exists s.
    - exists (<[o0 := primal x0]> s). rewrite Hx0. simpl.
      rewrite store_at_Some by done. split; [done|].
      intros r Hr. apply lookup_insert_is_Some'. by right. }
  destruct (fwd_loop_returns forward fwdSeed fwdSens fseeds fsens s1)
    as (s2 & Hs2 & Hs2_dom); [done | done | |].
  { apply Forall_app. rewrite !Forall_forall.
    split; intros p Hp; apply Hs1_dom; auto. }
  destruct (adj_loop_returns adjoint adjSeed adjSens aseeds asens s2)
    as (s' & Hs' & _); [done | done | |].
  { apply Forall_app. rewrite !Forall_forall.
    split; intros p Hp; apply Hs2_dom, Hs1_dom; auto. }
  destruct (for_range_trace _ _ _ _ _ Hs2) as (us & _ & Hus0 & Husn & Hus).
  destruct (for_range_trace _ _ _ _ _ Hs') as (ts & _ & Hts0 & Htsn & Hts).
  exists s', us, ts. unfold sweep. rewrite Hi, Ho. simpl.
  destruct (decide (i0 = o0)) as [?|_]; [done|].
  rewrite Hs1. simpl. rewrite Hs2. simpl.
  split; [done|]. split; [done|]. split; [done|]. split; [|split; [done|]].
  - intros d seed sens Hd Hseed Hsens.
    destruct (Hus d Hd) as (t & t' & Ht & Ht' & Hbody).
    exists t, t'. split; [done|]. split; [done|]. by eapply fwd_body_step.
  - split; [done|]. intros d aseed asens_d Hd Hseed Hsens.
    destruct (Hts d Hd) as (t & t' & Ht & Ht' & Hbody).
    exists t, t'. split; [done|]. split; [done|]. by eapply adj_body_step.
Qed.

Lemma Reshape_evaluateMX_sweep (n : Reshape.Node MX) :
  Reshape.evaluateMX n
  = sweep (fun x => reshape x (Reshape.shape n))
          (fun x => reshape x (Reshape.shape n))
          (fun w => reshape w (mx_shape (Reshape.dep n))).
Proof. reflexivity. Qed.

Lemma SubRef_evaluateMX_sweep (n : SubRef.Node MX) :
  SubRef.evaluateMX n
  = sweep (fun x => mx_sub x (SubRef.i_ n) (SubRef.j_ n))
          (fun x => mx_sub x (SubRef.i_ n) (SubRef.j_ n))
          (fun w => mx_scatter (mx_sparsity (SubRef.dep n))
                      (SubRef.i_ n) (SubRef.j_ n) w).
Proof. reflexivity. Qed.
End SweepSpec.

(** ** Reshape: forward and adjoint sensitivities *)

Section ReshapeSensitivities.
  Context {MX : Type} `{MXInterface MX}.

(** C6.  On a call that is not in place and on valid pointers, evaluateMX
    returns and runs the forward directions [d = 0, ..., nfwd - 1] in turn,
    each one assigning to the forward sensitivity slot [fwdSens[d][0]] the
    reshape, to the node's own shape, of the expression in the forward seed
    slot [fwdSeed[d][0]]: [us] lists the stores around these steps, from the
    store the call without directions returns to the one the call without
    adjoint directions returns.  When the slots do not overlap this is, for
    every direction, the reshape of the seed the caller passed, and it is
    what the sensitivity slot holds when the call returns. *)
Theorem Reshape_evaluateMX_forward (n : Reshape.Node MX) (input output : MXPtrV)
    (fwdSeed fwdSens adjSeed adjSens : MXPtrVV) (output_given : bool)
    (s : gmap addr MX) i0 o0 fseeds fsens aseeds asens :
  call_valid input output fwdSeed fwdSens adjSeed adjSens s
    i0 o0 fseeds fsens aseeds asens ->
  ∃ s' (us : list (gmap addr MX)),
    Reshape.evaluateMX n input output fwdSeed fwdSens adjSeed adjSens
      output_given s = Some s'
    ∧ us !! 0 = Reshape.evaluateMX n input output [] [] [] [] output_given s
    ∧ us !! length fwdSens
      = Reshape.evaluateMX n input output fwdSeed fwdSens [] [] output_given s
    ∧ (∀ d seed sens,
         d < length fwdSens ->
         slot0 fwdSeed d = Some seed -> slot0 fwdSens d = Some sens ->
         ∃ t t', us !! d = Some t ∧ us !! S d = Some t'
                 ∧ forward_step (fun x => reshape x (Reshape.shape n))
                     seed sens t t')
    ∧ (separate o0 fseeds fsens aseeds asens ->
       ∀ d seed sens x,
         d < length fwdSens ->
         slot0 fwdSeed d = Some seed -> slot0 fwdSens d = Some sens ->
         s !! seed = Some x ->
         s' !! sens = Some (reshape x (Reshape.shape n))).
Proof.
  intros Hok. rewrite !Reshape_evaluateMX_sweep.
  destruct (sweep_trace (fun x => reshape x (Reshape.shape n))
              (fun x => reshape x (Reshape.shape n))
              (fun w => reshape w (mx_shape (Reshape.dep n)))
              _ _ _ _ _ _ output_given _ _ _ _ _ _ _ Hok)
    as (s' & us & ts & Hrun & Hus0 & Husn & Hus & _).
  exists s', us. split; [done|]. split; [done|]. split; [done|].
  split; [done|]. intros Hsep d seed sens x Hd Hseed Hsens Hx.
  destruct (sweep_spec (fun x => reshape x (Reshape.shape n))
              (fun x => reshape x (Reshape.shape n))
              (fun w => reshape w (mx_shape (Reshape.dep n)))
              _ _ _ _ _ _ output_given _ _ _ _ _ _ _ (conj Hok Hsep))
    as (s'' & Hrun' & _ & Hfwd & _).
  rewrite Hrun in Hrun'. injection Hrun' as <-.
  destruct (slots_lookup _ _ _ d (ok_fseeds _ _ _ _ _ _ _ _ _ _ _ _ _ Hok) Hd)
    as (p & Hp & Hp0).
  destruct (slots_lookup _ _ _ d (ok_fsens _ _ _ _ _ _ _ _ _ _ _ _ _ Hok) Hd)
    as (q & Hq & Hq0).
  rewrite Hseed in Hp0. rewrite Hsens in Hq0.
  injection Hp0 as ->. injection Hq0 as ->. by eapply Hfwd.
Qed.

(** C1.  On a call that is not in place and on valid pointers, evaluateMX
    returns and runs the adjoint directions [d = 0, ..., nadj - 1] in turn,
    each one accumulating into the adjoint sensitivity slot [adjSens[d][0]]
    ([addToSum] with its content, not an assignment) the adjoint seed of
    [adjSeed[d][0]] reshaped to the dependency's shape, and then overwriting
    the seed slot with the empty expression [MX()]: [ts] lists the stores
    around these steps, from the store the call without adjoint directions
    returns to the store the call returns.  When the slots do not overlap,
    the sensitivity slot holds, when the call returns, [addToSum] of what the
    caller passed in it with the reshape of the seed the caller passed, and
    the seed slot holds [MX()]. *)
Theorem Reshape_evaluateMX_adjoint (n : Reshape.Node MX) (input output : MXPtrV)
    (fwdSeed fwdSens adjSeed adjSens : MXPtrVV) (output_given : bool)
    (s : gmap addr MX) i0 o0 fseeds fsens aseeds asens :
  call_valid input output fwdSeed fwdSens adjSeed adjSens s
    i0 o0 fseeds fsens aseeds asens ->
  ∃ s' (ts : list (gmap addr MX)),
    Reshape.evaluateMX n input output fwdSeed fwdSens adjSeed adjSens
      output_given s = Some s'
    ∧ ts !! 0
      = Reshape.evaluateMX n input output fwdSeed fwdSens [] [] output_given s
    ∧ ts !! length adjSeed = Some s'
    ∧ (∀ d aseed asens_d,
         d < length adjSeed ->
         slot0 adjSeed d = Some aseed -> slot0 adjSens d = Some asens_d ->
         ∃ t t', ts !! d = Some t ∧ ts !! S d = Some t'
                 ∧ adjoint_step
                     (fun w => reshape w (mx_shape (Reshape.dep n)))
                     aseed asens_d t t')
    ∧ (separate o0 fseeds fsens aseeds asens ->
       ∀ d aseed asens_d w a,
         d < length adjSeed ->
         slot0 adjSeed d = Some aseed -> slot0 adjSens d = Some asens_d ->
         s !! aseed = Some w -> s !! asens_d = Some a ->
         s' !! asens_d
           = Some (addToSum a (reshape w (mx_shape (Reshape.dep n))))
         ∧ s' !! aseed = Some mx_empty).
Proof.
  intros Hok. rewrite !Reshape_evaluateMX_sweep.
  destruct (sweep_trace (fun x => reshape x (Reshape.shape n))
              (fun x => reshape x (Reshape.shape n))
              (fun w => reshape w (mx_shape (Reshape.dep n)))
              _ _ _ _ _ _ output_given _ _ _ _ _ _ _ Hok)
    as (s' & us & ts & Hrun & _ & _ & _ & Hts0 & Htsn & Hts).
  exists s', ts. split; [done|]. split; [done|]. split; [done|].
  split; [done|]. intros Hsep d aseed asens_d w a Hd Hseed Hsens Hw Ha.
  destruct (sweep_spec (fun x => reshape x (Reshape.shape n))
              (fun x => reshape x (Reshape.shape n))
              (fun w => reshape w (mx_shape (Reshape.dep n)))
              _ _ _ _ _ _ output_given _ _ _ _ _ _ _ (conj Hok Hsep))
    as (s'' & Hrun' & _ & _ & Hadj & _).
  rewrite Hrun in Hrun'. injection Hrun' as <-.
  destruct (slots_lookup _ _ _ d (ok_aseeds _ _ _ _ _ _ _ _ _ _ _ _ _ Hok) Hd)
    as (p & Hp & Hp0).
  destruct (slots_lookup _ _ _ d (ok_asens _ _ _ _ _ _ _ _ _ _ _ _ _ Hok) Hd)
    as (q & Hq & Hq0).
  rewrite Hseed in Hp0. rewrite Hsens in Hq0.
  injection Hp0 as ->. injection Hq0 as ->. by eapply Hadj.
Qed.

End ReshapeSensitivities.

(** ** SubRef: the selected nonzeros *)

Lemma getAll_NoDup (sl : Slice) : NoDup (SubRef.getAll sl).
Proof.
  unfold SubRef.getAll, SubRef.slice_count. case_decide as Hstep.
  - constructor.
  - apply NoDup_fmap_2_strong; [|apply NoDup_seq].
    intros k1 k2 _ _ Heq. apply Nat.add_cancel_l in Heq.
    by apply Nat.mul_cancel_r in Heq.
Qed.

Lemma elem_of_getAll (sl : Slice) (r : nat) :
  r ∈ SubRef.getAll sl ↔ SubRef.selects sl r.
Proof.
  unfold SubRef.selects, SubRef.getAll, SubRef.slice_count.
  rewrite list_elem_of_fmap.
  case_decide as Hstep.
  - split; [|by intros [? _]]. intros (k & _ & Hk). simpl in Hk.
    by apply elem_of_nil in Hk.
  - split.
    + intros (k & -> & Hk). apply elem_of_seq in Hk. split; [done|].
      assert (k * step sl < stop sl - start sl) as Hlt.
      { destruct Hk as [_ Hk]. simpl in Hk.
        pose proof (Nat.div_mod_eq (stop sl - start sl + step sl - 1) (step sl)).
        nia. }
      split; [lia|].
      replace (start sl + k * step sl - start sl) with (k * step sl) by lia.
      by apply Nat.Div0.mod_mul.
    + intros (_ & Hr & Hmod).
      exists ((r - start sl) / step sl).
      pose proof (Nat.div_mod_eq (r - start sl) (step sl)) as Hdm.
      rewrite Hmod in Hdm. split; [nia|].
      apply elem_of_seq. split; [lia|]. simpl.
      apply Nat.Div0.div_lt_upper_bound.
      pose proof (Nat.div_mod_eq (stop sl - start sl + step sl - 1) (step sl)).
      pose proof (Nat.mod_upper_bound
                    (stop sl - start sl + step sl - 1) (step sl) Hstep).
      nia.
Qed.

Lemma elem_of_block (i j : Slice) (r c : nat) :
  (r, c) ∈ SubRef.block i j ↔ SubRef.selects i r ∧ SubRef.selects j c.
Proof.
  rewrite <- !elem_of_getAll.
  unfold SubRef.block. rewrite list_elem_of_bind. split.
  - intros (r' & Hin & Hr'). apply list_elem_of_bind in Hin as (c' & Hin & Hc').
    apply list_elem_of_ret in Hin. by injection Hin as -> ->.
  - intros [Hr Hc]. exists r. split; [|done].
    apply list_elem_of_bind. exists c. split; [|done]. by apply list_elem_of_ret.
Qed.

Lemma seq_sorted (a n : nat) : StronglySorted lt (seq a n).
Proof.
  revert a. induction n as [|n IH]; intros a; simpl; constructor; [done|].
  apply Forall_forall. intros k Hk. apply elem_of_seq in Hk. lia.
Qed.

Lemma getAll_sorted (sl : Slice) : StronglySorted lt (SubRef.getAll sl).
Proof.
  unfold SubRef.getAll, SubRef.slice_count. case_decide as Hstep.
  - constructor.
  - eapply StronglySorted_fmap; [|apply seq_sorted].
    intros k1 k2 Hk. simpl. nia.
Qed.

Lemma block_row_sorted (r : nat) (cols : list nat) :
  StronglySorted lt cols ->
  StronglySorted SubRef.row_major (cols ≫= fun c => [(r, c)]).
Proof.
  induction 1 as [|c cols Hcols IH Hc]; [constructor|].
  rewrite bind_cons. simpl. constructor; [done|].
  apply Forall_forall. intros q Hq.
  apply list_elem_of_bind in Hq as (c' & Hq & Hc').
  apply list_elem_of_ret in Hq as ->.
  rewrite Forall_forall in Hc. right. simpl. split; [done|]. by apply Hc.
Qed.

(** The enumeration of the block is in row-major order. *)
Lemma block_sorted (i j : Slice) :
  StronglySorted SubRef.row_major (SubRef.block i j).
Proof.
  unfold SubRef.block. generalize (getAll_sorted i).
  induction 1 as [|r rows Hrows IH Hr]; [constructor|].
  rewrite bind_cons. apply StronglySorted_app. split; [|split; [|done]].
  - intros p q Hp Hq.
    apply list_elem_of_bind in Hp as (c & Hp & _).
    apply list_elem_of_ret in Hp as ->.
    apply list_elem_of_bind in Hq as (r' & Hq & Hr').
    apply list_elem_of_bind in Hq as (c' & Hq & _).
    apply list_elem_of_ret in Hq as ->.
    rewrite Forall_forall in Hr. left. simpl. by apply Hr.
  - apply block_row_sorted, getAll_sorted.
Qed.

Lemma block_NoDup (i j : Slice) : NoDup (SubRef.block i j).
Proof.
  unfold SubRef.block. apply NoDup_bind; [| |apply getAll_NoDup].
  - intros r1 r2 rc _ _ H1 H2.
    apply list_elem_of_bind in H1 as (c1 & H1 & _).
    apply list_elem_of_bind in H2 as (c2 & H2 & _).
    apply list_elem_of_ret in H1, H2. congruence.
  - intros r _. apply NoDup_bind; [| |apply getAll_NoDup].
    + intros c1 c2 rc _ _ H1 H2. apply list_elem_of_ret in H1, H2. congruence.
    + intros c _. apply NoDup_singleton.
Qed.

Lemma nz_index_Some (sp : Sparsity) (rc : nat * nat) (k : nat) :
  SubRef.nz_index sp rc = Some k -> nz_pos sp !! k = Some rc.
Proof.
  unfold SubRef.nz_index. intros Hk.
  apply fmap_Some in Hk as ([k' rc'] & Hfind & ->).
  apply list_find_Some in Hfind as (Hlook & -> & _). done.
Qed.

Lemma nz_index_None (sp : Sparsity) (rc : nat * nat) :
  SubRef.nz_index sp rc = None -> rc ∉ nz_pos sp.
Proof.
  unfold SubRef.nz_index. intros Hk. apply fmap_None in Hk.
  apply list_find_None in Hk. rewrite Forall_forall in Hk.
  intros Hin. by apply (Hk rc).
Qed.

Lemma mapping_bound (sp : Sparsity) (i j : Slice) :
  Forall (fun k => k < sp_nnz sp) (SubRef.mapping sp i j).
Proof.
  apply Forall_forall. intros k Hk. unfold SubRef.mapping in Hk.
  apply list_elem_of_omap in Hk as (rc & _ & Hrc).
  apply nz_index_Some in Hrc. by apply lookup_lt_Some in Hrc.
Qed.

Lemma mapping_NoDup (sp : Sparsity) (i j : Slice) :
  NoDup (SubRef.mapping sp i j).
Proof.
  unfold SubRef.mapping. generalize (block_NoDup i j).
  induction 1 as [|rc l Hrc Hl IH]; [constructor|]. simpl.
  destruct (SubRef.nz_index sp rc) as [k|] eqn:Hk; [|done].
  constructor; [|done]. intros Hin.
  apply list_elem_of_omap in Hin as (rc' & Hin' & Hk').
  apply nz_index_Some in Hk, Hk'. congruence.
Qed.

(** The selected nonzeros are, in order, the coordinates of the block (in
    the block's row-major order) that are structural nonzeros of the
    pattern. *)
Lemma mapping_coords (sp : Sparsity) (i j : Slice) :
  Forall2 (fun rc k => nz_pos sp !! k = Some rc)
    (filter (fun rc => rc ∈ nz_pos sp) (SubRef.block i j))
    (SubRef.mapping sp i j).
Proof.
  unfold SubRef.mapping. induction (SubRef.block i j) as [|rc l IH]; [constructor|].
  simpl. rewrite filter_cons.
  destruct (SubRef.nz_index sp rc) as [k|] eqn:Hk.
  - apply nz_index_Some in Hk. rewrite decide_True.
    + by constructor.
    + by eapply list_elem_of_lookup_2.
  - apply nz_index_None in Hk. by rewrite decide_False.
Qed.

Lemma Forall2_compose {A B C : Type} (P : A -> B -> Prop) (Q : B -> C -> Prop)
    (l1 : list A) (l2 : list B) (l3 : list C) :
  Forall2 P l1 l2 -> Forall2 Q l2 l3 ->
  Forall2 (fun a c => ∃ b, P a b ∧ Q b c) l1 l3.
Proof.
  intros H12. revert l3.
  induction H12 as [|a b l1 l2 Hab _ IH]; intros l3 H23;
    inversion H23; subst; constructor; eauto.
Qed.

Lemma gather_loop_spec {T : Type} (arg : list T) (idx : list nat) :
  Forall (fun k => k < length arg) idx ->
  ∀ res m, m + length idx ≤ length res ->
  ∃ vals, Forall2 (fun k v => arg !! k = Some v) idx vals
    ∧ SubRef.gather_loop arg idx res m
      = Some (take m res ++ vals ++ drop (m + length idx) res).
Proof.
  induction 1 as [|k idx Hk Hidx IH]; intros res m Hlen; simpl in *.
  - exists []. split; [constructor|]. simpl.
    by rewrite Nat.add_0_r, take_drop.
  - destruct (lookup_lt_is_Some_2 arg k) as [x Hx]; [lia|].
    destruct (lookup_lt_is_Some_2 res m) as [y Hy]; [lia|].
    destruct (IH (<[m := x]> res) (S m)) as (vals & Hvals & Hrun).
    { rewrite length_insert. lia. }
    exists (x :: vals). split; [by constructor|].
    rewrite Hx, Hy. simpl. rewrite Hrun. f_equal.
    rewrite drop_insert_lt by lia.
    rewrite (take_S_r (<[m:=x]> res) m x)
      by (apply list_lookup_insert_eq; lia).
    rewrite take_insert_ge by lia. rewrite <- app_assoc. simpl.
    by replace (m + S (length idx)) with (S (m + length idx)) by lia.
Qed.

(** ** Gather and scatter are adjoint *)

Section GatherScatter.
Context {R : Type} (rO rI : R) (radd rmul : R -> R -> R).
Hypothesis Rth : semi_ring_theory rO rI radd rmul eq.

Local Abbreviation dotR := (dot rO radd rmul).
Local Abbreviation gatherR := (SubRef.gather rO).
Local Abbreviation scatterR := (SubRef.scatter rO).

Lemma rmul_0_r (a : R) : rmul a rO = rO.
Proof using Rth. by rewrite (SRmul_comm Rth), (SRmul_0_l Rth). Qed.

Lemma dot_zeros (u : list R) (n : nat) : dotR u (replicate n rO) = rO.
Proof using Rth.
  revert n. induction u as [|a u IH]; intros [|n]; try done.
  unfold dot in *. simpl. by rewrite IH, rmul_0_r, (SRadd_0_l Rth).
Qed.

Lemma dot_insert (u z : list R) (k : nat) (a x : R) :
  u !! k = Some a -> z !! k = Some rO ->
  dotR u (<[k := x]> z) = radd (rmul a x) (dotR u z).
Proof using Rth.
  revert z k. induction u as [|b u IH]; intros [|c z] [|k] Hu Hz;
    try done; simpl in *.
  - injection Hu as ->. injection Hz as ->. unfold dot. simpl.
    by rewrite rmul_0_r, (SRadd_0_l Rth).
  - unfold dot in *. simpl. rewrite (IH z k Hu Hz).
    rewrite !(SRadd_assoc Rth). f_equal. apply (SRadd_comm Rth).
Qed.

Lemma scatter_length (n : nat) (idx : list nat) (w : list R) :
  length (scatterR n idx w) = n.
Proof.
  unfold SubRef.scatter.
  induction (zip idx w) as [|kx l IH]; simpl.
  - apply length_replicate.
  - by rewrite length_insert.
Qed.

Lemma scatter_lookup_other (n : nat) (idx : list nat) (w : list R) (k : nat) :
  k ∉ idx -> k < n -> scatterR n idx w !! k = Some rO.
Proof.
  unfold SubRef.scatter. revert w.
  induction idx as [|i idx IH]; intros w Hk Hn; simpl.
  - by apply lookup_replicate_2.
  - destruct w as [|x w]; simpl; [by apply lookup_replicate_2|].
    apply not_elem_of_cons in Hk as [Hki Hk].
    rewrite list_lookup_insert_ne by done. by apply IH.
Qed.

Lemma dot_insert_ge (u z : list R) (k : nat) (x : R) :
  length u ≤ k -> dotR u (<[k := x]> z) = dotR u z.
Proof.
  revert z k. induction u as [|b u IH]; intros z k Hk; [done|].
  destruct z as [|c z]; [done|]. destruct k as [|k]; simpl in *; [lia|].
  unfold dot in *. simpl. by rewrite IH by lia.
Qed.

(** The dot product of the gathered values with a block-shaped vector is
    the dot product of the full vector with the scattered one, whatever the
    lengths of the two vectors: a value that is missing counts as zero on
    both sides. *)
Lemma dot_gather_scatter (n : nat) (idx : list nat) (u w : list R) :
  NoDup idx -> Forall (fun k => k < n) idx ->
  dotR (gatherR idx u) w = dotR u (scatterR n idx w).
Proof using Rth.
  intros Hnd Hidx. revert w.
  induction Hnd as [|k idx Hk Hnd IH]; intros w.
  - unfold SubRef.scatter. simpl. by rewrite dot_zeros.
  - destruct w as [|x w].
    { unfold SubRef.scatter. simpl. by rewrite dot_zeros. }
    apply Forall_cons in Hidx as [Hkn Hidx].
    assert (scatterR n (k :: idx) (x :: w) = <[k := x]> (scatterR n idx w))
      as -> by done.
    destruct (u !! k) as [a|] eqn:Ha.
    + rewrite (dot_insert _ _ _ a) by (auto using scatter_lookup_other).
      rewrite <- IH by done.
      unfold SubRef.gather, dot. simpl. by rewrite Ha.
    + apply lookup_ge_None in Ha. rewrite dot_insert_ge by done.
      rewrite <- IH by done.
      unfold SubRef.gather, dot. simpl.
      rewrite (lookup_ge_None_2 u k) by done. simpl.
      by rewrite (SRmul_0_l Rth), (SRadd_0_l Rth).
Qed.
End GatherScatter.

(** ** The adjoint identity *)

Section AdjointIdentity.
  Context {MX R : Type} `{MXInterface MX}.
  Context (rO rI : R) (radd rmul : R -> R -> R).
  Context `{!MXSemantics MX R rO}.
  Hypothesis Rth : semi_ring_theory rO rI radd rmul eq.

  Local Abbreviation dotR := (dot rO radd rmul).


End AdjointIdentity.

(** ** SubRef: numeric evaluation *)

(** C9.  With distinct buffers, the input one holding the dependency's
    nonzeros and the output one a value per selected nonzero, evaluateGen
    returns and changes the output buffer only.  Its values are then, in
    this order, the dependency's values at those coordinates of the block
    that are structural nonzeros of the dependency, where the block lists
    exactly the coordinates with a row the row selector addresses and a
    column the column selector addresses, in row-major order.  So each
    output value is the value stored at a coordinate inside the block, and
    no nonzero inside the block is left out.  On the dense 4-by-4 matrix
    [v i j = 4 i + j] the rows [1:3) and the columns [0:2) give the 2-by-2
    block with the values 4, 5, 8, 9. *)
Theorem SubRef_evaluateGen_block :
  (∀ (MX : Type) (H : MXInterface MX) (T : Type) (n : SubRef.Node MX)
     (input output : list addr) (h : gmap addr (Matrix T)) i0 o0 inp out,
     input !! 0 = Some i0 -> output !! 0 = Some o0 -> i0 ≠ o0 ->
     h !! i0 = Some inp -> h !! o0 = Some out ->
     length (data inp) = mx_nnz (SubRef.dep n) ->
     length (data out)
       = length (SubRef.mapping (mx_sparsity (SubRef.dep n))
                   (SubRef.i_ n) (SubRef.j_ n)) ->
     ∃ h' vals,
       SubRef.evaluateGen n input output h = Some h'
       ∧ h' !! o0 = Some (mkMatrix (m_sparsity out) vals)
       ∧ (∀ p, p ≠ o0 -> h' !! p = h !! p)
       ∧ Forall2
           (fun rc v => ∃ k, nz_pos (mx_sparsity (SubRef.dep n)) !! k = Some rc
                             ∧ data inp !! k = Some v)
           (filter (fun rc => rc ∈ nz_pos (mx_sparsity (SubRef.dep n)))
              (SubRef.block (SubRef.i_ n) (SubRef.j_ n)))
           vals
       ∧ (∀ r c, (r, c) ∈ SubRef.block (SubRef.i_ n) (SubRef.j_ n)
                 ↔ SubRef.selects (SubRef.i_ n) r
                   ∧ SubRef.selects (SubRef.j_ n) c)
       ∧ StronglySorted SubRef.row_major
           (SubRef.block (SubRef.i_ n) (SubRef.j_ n)))
  ∧ SubRef.evaluateGen Example.subref_node [1%Z] [2%Z] Example.subref_buffers
    = Some (<[2%Z := mkMatrix (mkSparsity 2 2 [(0, 0); (0, 1); (1, 0); (1, 1)])
                       [4; 5; 8; 9]%Z]> Example.subref_buffers).
Proof.
  split; [|by vm_compute].
  intros MX H T n input output h i0 o0 inp out Hi Ho Hne Hinp Hout Hli Hlo.
  destruct (gather_loop_spec (data inp)
              (SubRef.mapping (mx_sparsity (SubRef.dep n))
                 (SubRef.i_ n) (SubRef.j_ n))) with (res := data out) (m := 0)
    as (vals & Hvals & Hrun).
  { rewrite Hli. apply mapping_bound. }
  { lia. }
  exists (<[o0 := set_data out vals]> h), vals.
  split.
  { unfold SubRef.evaluateGen. rewrite Hi, Ho. simpl.
    rewrite decide_False by done. rewrite Hout, Hinp. simpl.
    rewrite Hrun. simpl. rewrite <- Hlo, drop_all, app_nil_r. done. }
  split; [by rewrite lookup_insert_eq|].
  split; [intros p Hp; by rewrite lookup_insert_ne|].
  split; [|split; [intros r c; apply elem_of_block | apply block_sorted]].
  eapply Forall2_compose; [apply mapping_coords | apply Hvals].
Qed.

(** ** The properties on the concrete nodes *)

Section Witnesses.
  Import Example ConstMX.

Lemma Z_semi_ring : semi_ring_theory 0%Z 1%Z Z.add Z.mul eq.
Proof. constructor; intros; lia. Qed.

Lemma example_slots (a b : addr) : slots [[a]; [b]] 2 [a; b].
Proof.
  split; [done|]. intros [|[|d]] p Hp; simpl in Hp; by simplify_eq.
Qed.

Lemma reshape_call_ok :
  call_ok input output fwdSeed fwdSens adjSeed adjSens reshape_slots
    10%Z 11%Z [20; 22]%Z [21; 23]%Z [30; 32]%Z [31; 33]%Z.
Proof.
  split; constructor; try done; try apply example_slots; by compute_done.
Qed.

Lemma subref_call_ok :
  call_ok input output fwdSeed fwdSens adjSeed adjSens subref_slots
    10%Z 11%Z [20; 22]%Z [21; 23]%Z [30; 32]%Z [31; 33]%Z.
Proof.
  split; constructor; try done; try apply example_slots; by compute_done.
Qed.

(** Reshape of a 2-by-3 value into 3-by-2 copies [1..6] unchanged. *)
Example reshape_run :
  Reshape.evaluateD reshape_node [1%Z] [2%Z] buffers
  = Some (<[2%Z := mkMatrix (dense 3 2) [1; 2; 3; 4; 5; 6]%Z]> buffers).
Proof. by vm_compute. Qed.

(** The sensitivities of the example call: the second forward direction,
    the accumulation into the first adjoint sensitivity and its cleared
    seed. *)
Example reshape_sweep_run :
  (s' ← Reshape.evaluateMX reshape_node input output
          fwdSeed fwdSens adjSeed adjSens false reshape_slots;
   Some (s' !! 23%Z, s' !! 31%Z, s' !! 30%Z))
  = Some (Some (mkMatrix (dense 3 2) [0; 1; 1; 0; 5; 0]%Z),
          Some (mkMatrix (dense 2 3) [8; 1; 3; 1; 2; 5]%Z),
          Some mx_empty).
Proof. by vm_compute. Qed.

(** Slots may be shared: with one slot as both the adjoint seed and the
    adjoint sensitivity of a direction, the accumulated sum is cleared with
    the seed. *)
Example reshape_shared_slot_run :
  (s' ← Reshape.evaluateMX reshape_node input output
          [] [] [[30%Z]] [[30%Z]] true reshape_slots;
   s' !! 30%Z)
  = Some mx_empty.
Proof. by vm_compute. Qed.

Lemma Reshape_construction_witness :
  Reshape.Reshape x23 (dense 2 2) = Throw AssertionFailed
  ∧ ∃ n, Reshape.Reshape x23 (dense 3 2) = Value n
         ∧ Reshape.sparsity n = dense 3 2 ∧ Reshape.dep n = x23.
Proof.
  split.
  - apply (proj1 (Reshape_construction x23 (dense 2 2))). vm_compute. lia.
  - apply (proj2 (Reshape_construction x23 (dense 3 2))). reflexivity.
Defined.

Lemma Reshape_evaluateGen_copies_witness :
  ∃ h', Reshape.evaluateGen reshape_node [1%Z] [2%Z] buffers = Some h'
    ∧ h' !! 2%Z = Some (mkMatrix (dense 3 2) [1; 2; 3; 4; 5; 6]%Z)
    ∧ h' !! 1%Z = Some x23
    ∧ ∀ p, p ≠ 2%Z -> h' !! p = buffers !! p.
Proof.
  apply (Reshape_evaluateGen_copies reshape_node [1%Z] [2%Z] buffers
           1%Z 2%Z x23 (mkMatrix (dense 3 2) [0; 0; 0; 0; 0; 0]%Z));
    [reflexivity | reflexivity | lia | reflexivity | reflexivity
    | vm_compute; lia | vm_compute; lia].
Defined.

Lemma Reshape_evaluateGen_inplace_witness :
  Reshape.evaluateGen reshape_node [1%Z] [1%Z] buffers = Some buffers.
Proof.
  apply (Reshape_evaluateGen_inplace reshape_node [1%Z] [1%Z] buffers 1%Z);
    reflexivity.
Defined.

Lemma Reshape_propagateSparsity_forward_witness :
  ∃ h', Reshape.propagateSparsity reshape_node [1%Z] [2%Z] true tags = Some h'
    ∧ h' !! 2%Z = Some (mkMatrix (dense 3 2) [1; 0; 4; 0; 3; 8]%Z)
    ∧ h' !! 1%Z = Some (mkMatrix (dense 2 3) [1; 0; 4; 0; 3; 8]%Z)
    ∧ ∀ p, p ≠ 2%Z -> h' !! p = tags !! p.
Proof.
  apply (Reshape_propagateSparsity_forward reshape_node [1%Z] [2%Z] tags
           1%Z 2%Z (mkMatrix (dense 2 3) [1; 0; 4; 0; 3; 8]%Z)
           (mkMatrix (dense 3 2) [2; 0; 4; 1; 5; 0]%Z));
    [reflexivity | reflexivity | lia | reflexivity | reflexivity | reflexivity].
Defined.

Lemma Reshape_propagateSparsity_backward_witness :
  ∃ h', Reshape.propagateSparsity reshape_node [1%Z] [2%Z] false tags = Some h'
    ∧ h' !! 1%Z = Some (mkMatrix (dense 2 3) [3; 0; 4; 1; 7; 8]%Z)
    ∧ h' !! 2%Z = Some (mkMatrix (dense 3 2) [0; 0; 0; 0; 0; 0]%Z)
    ∧ ∀ p, p ≠ 1%Z -> p ≠ 2%Z -> h' !! p = tags !! p.
Proof.
  apply (Reshape_propagateSparsity_backward reshape_node [1%Z] [2%Z] tags
           1%Z 2%Z (mkMatrix (dense 2 3) [1; 0; 4; 0; 3; 8]%Z)
           (mkMatrix (dense 3 2) [2; 0; 4; 1; 5; 0]%Z));
    [reflexivity | reflexivity | lia | reflexivity | reflexivity | reflexivity].
Defined.

Lemma Reshape_evaluateMX_inplace_witness :
  Reshape.evaluateMX reshape_node [10%Z] [10%Z]
    fwdSeed fwdSens adjSeed adjSens false reshape_slots
  = Some reshape_slots.
Proof.
  apply (Reshape_evaluateMX_inplace reshape_node [10%Z] [10%Z]
           fwdSeed fwdSens adjSeed adjSens false reshape_slots 10%Z);
    reflexivity.
Defined.

Lemma Reshape_evaluateMX_forward_witness :
  ∃ s' (us : list (gmap addr (Matrix Z))),
    Reshape.evaluateMX reshape_node input output
      fwdSeed fwdSens adjSeed adjSens false reshape_slots = Some s'
    ∧ us !! 0
      = Reshape.evaluateMX reshape_node input output [] [] [] [] false
          reshape_slots
    ∧ us !! length fwdSens
      = Reshape.evaluateMX reshape_node input output fwdSeed fwdSens [] []
          false reshape_slots
    ∧ (∀ d seed sens,
         d < length fwdSens ->
         slot0 fwdSeed d = Some seed -> slot0 fwdSens d = Some sens ->
         ∃ t t', us !! d = Some t ∧ us !! S d = Some t'
                 ∧ forward_step
                     (fun x => reshape x (Reshape.shape reshape_node))
                     seed sens t t')
    ∧ (separate 11%Z [20; 22]%Z [21; 23]%Z [30; 32]%Z [31; 33]%Z ->
       ∀ d seed sens x,
         d < length fwdSens ->
         slot0 fwdSeed d = Some seed -> slot0 fwdSens d = Some sens ->
         reshape_slots !! seed = Some x ->
         s' !! sens = Some (reshape x (Reshape.shape reshape_node))).
Proof.
  exact (Reshape_evaluateMX_forward reshape_node input output
           fwdSeed fwdSens adjSeed adjSens false reshape_slots
           _ _ _ _ _ _ (proj1 reshape_call_ok)).
Defined.

Lemma Reshape_evaluateMX_adjoint_witness :
  ∃ s' (ts : list (gmap addr (Matrix Z))),
    Reshape.evaluateMX reshape_node input output
      fwdSeed fwdSens adjSeed adjSens false reshape_slots = Some s'
    ∧ ts !! 0
      = Reshape.evaluateMX reshape_node input output fwdSeed fwdSens [] []
          false reshape_slots
    ∧ ts !! length adjSeed = Some s'
    ∧ (∀ d aseed asens_d,
         d < length adjSeed ->
         slot0 adjSeed d = Some aseed -> slot0 adjSens d = Some asens_d ->
         ∃ t t', ts !! d = Some t ∧ ts !! S d = Some t'
                 ∧ adjoint_step
                     (fun w => reshape w (mx_shape (Reshape.dep reshape_node)))
                     aseed asens_d t t')
    ∧ (separate 11%Z [20; 22]%Z [21; 23]%Z [30; 32]%Z [31; 33]%Z ->
       ∀ d aseed asens_d w a,
         d < length adjSeed ->
         slot0 adjSeed d = Some aseed -> slot0 adjSens d = Some asens_d ->
         reshape_slots !! aseed = Some w -> reshape_slots !! asens_d = Some a ->
         s' !! asens_d
           = Some (addToSum a (reshape w (mx_shape (Reshape.dep reshape_node))))
         ∧ s' !! aseed = Some mx_empty).
Proof.
  exact (Reshape_evaluateMX_adjoint reshape_node input output
           fwdSeed fwdSens adjSeed adjSens false reshape_slots
           _ _ _ _ _ _ (proj1 reshape_call_ok)).
Defined.



Lemma SubRef_evaluateGen_block_witness :
  ∃ h' vals,
    SubRef.evaluateGen subref_node [1%Z] [2%Z] subref_buffers = Some h'
    ∧ h' !! 2%Z
      = Some (mkMatrix (SubRef.sub_pattern (dense 4 4) rows13 cols02) vals)
    ∧ (∀ p, p ≠ 2%Z -> h' !! p = subref_buffers !! p)
    ∧ Forall2
        (fun rc v => ∃ k, nz_pos (dense 4 4) !! k = Some rc
                          ∧ data x44 !! k = Some v)
        [(1, 0); (1, 1); (2, 0); (2, 1)] vals
    ∧ (∀ r c, (r, c) ∈ SubRef.block rows13 cols02
              ↔ SubRef.selects rows13 r ∧ SubRef.selects cols02 c)
    ∧ StronglySorted SubRef.row_major (SubRef.block rows13 cols02).
Proof.
  apply (proj1 SubRef_evaluateGen_block (Matrix Z) interface Z subref_node
           [1%Z] [2%Z] subref_buffers 1%Z 2%Z x44
           (mkMatrix (SubRef.sub_pattern (dense 4 4) rows13 cols02)
              [0; 0; 0; 0]%Z));
    [reflexivity | reflexivity | lia | reflexivity..].
Defined.

End Witnesses.

(** * Further properties of the code *)

(** ** Numeric evaluation: bounds, repetition, layout, chains *)

Lemma copy_is_Some {T : Type} (arg : list T) count : ∀ first res d_first,
  first ≤ length arg -> d_first ≤ length res ->
  is_Some (copy arg first count res d_first)
  ↔ first + count ≤ length arg ∧ d_first + count ≤ length res.
Proof.
  induction count as [|c IH]; intros first res d Hfirst Hd; simpl.
  - split; [intros _; lia | by eexists].
  - destruct (arg !! first) as [x|] eqn:Hx; simpl.
    + destruct (res !! d) as [y|] eqn:Hy; simpl.
      * apply lookup_lt_Some in Hx, Hy.
        rewrite IH by (rewrite ?length_insert; lia).
        rewrite length_insert. lia.
      * apply lookup_ge_None in Hy. split; [by intros [? ?] | lia].
    + apply lookup_ge_None in Hx. split; [by intros [? ?] | lia].
Qed.

Lemma set_data_id {T : Type} (m : Matrix T) : set_data m (data m) = m.
Proof. by destruct m. Qed.

Lemma bwd_loop_lengths count : ∀ k (st st' : list bvec_t * list bvec_t),
  for_range k count Reshape.bwd_step st = Some st' ->
  length st'.1 = length st.1 ∧ length st'.2 = length st.2.
Proof.
  induction count as [|c IH]; intros k st st' Hloop; simpl in Hloop.
  - by injection Hloop as <-.
  - destruct (Reshape.bwd_step k st) as [st1|] eqn:Hstep; simpl in Hloop;
      [|done].
    apply IH in Hloop. unfold Reshape.bwd_step in Hstep.
    destruct (st.1 !! k) as [x|]; simpl in Hstep; [|done].
    destruct (st.2 !! k) as [y|]; simpl in Hstep; [|done].
    injection Hstep as <-. simpl in Hloop.
    by rewrite !length_insert in Hloop.
Qed.

Section NumericMore.
Context {MX : Type} `{MXInterface MX}.
Implicit Types (n : Reshape.Node MX) (input output : list addr).

(** What evaluateGen does on two different matrices. *)
Lemma evaluateGen_distinct {T : Type} n input output (h : gmap addr (Matrix T))
    i0 o0 inp out :
  input !! 0 = Some i0 -> output !! 0 = Some o0 -> i0 ≠ o0 ->
  h !! i0 = Some inp -> h !! o0 = Some out ->
  Reshape.evaluateGen n input output h
  = (res ← copy (data inp) 0 (Reshape.nnz n) (data out) 0;
     Some (<[o0 := set_data out res]> h)).
Proof.
  intros Hi Ho Hne Hinp Hout. unfold Reshape.evaluateGen.
  rewrite Hi, Ho. simpl. rewrite decide_False by done.
  by rewrite Hout, Hinp.
Qed.

Lemma evaluateGen_run {T : Type} n input output (h : gmap addr (Matrix T))
    i0 o0 inp out :
  input !! 0 = Some i0 -> output !! 0 = Some o0 -> i0 ≠ o0 ->
  h !! i0 = Some inp -> h !! o0 = Some out ->
  Reshape.nnz n ≤ length (data inp) -> Reshape.nnz n ≤ length (data out) ->
  Reshape.evaluateGen n input output h
  = Some (<[o0 := set_data out (take (Reshape.nnz n) (data inp)
                                ++ drop (Reshape.nnz n) (data out))]> h).
Proof.
  intros Hi Ho Hne Hinp Hout Hli Hlo.
  rewrite (evaluateGen_distinct n input output h i0 o0 inp out) by done.
  by rewrite copy_front.
Qed.

(** Every return of evaluateGen is the quick return or a copy of [nnz]
    values between two different matrices that hold at least as many. *)
Lemma evaluateGen_inv {T : Type} n input output (h h' : gmap addr (Matrix T)) :
  Reshape.evaluateGen n input output h = Some h' ->
  (∃ p, input !! 0 = Some p ∧ output !! 0 = Some p ∧ h' = h)
  ∨ (∃ i0 o0 inp out,
       input !! 0 = Some i0 ∧ output !! 0 = Some o0 ∧ i0 ≠ o0
       ∧ h !! i0 = Some inp ∧ h !! o0 = Some out
       ∧ Reshape.nnz n ≤ length (data inp)
       ∧ Reshape.nnz n ≤ length (data out)
       ∧ h' = <[o0 := set_data out (take (Reshape.nnz n) (data inp)
                                    ++ drop (Reshape.nnz n) (data out))]> h).
Proof.
  unfold Reshape.evaluateGen. intros Hrun.
  destruct (input !! 0) as [i0|] eqn:Hi; [|done].
  destruct (output !! 0) as [o0|] eqn:Ho; [|done]. simpl in Hrun.
  destruct (decide (i0 = o0)) as [->|Hne].
  - left. exists o0. by injection Hrun as <-.
  - right. destruct (h !! o0) as [out|] eqn:Hout; [|done].
    destruct (h !! i0) as [inp|] eqn:Hinp; [|done]. simpl in Hrun.
    destruct (copy (data inp) 0 (Reshape.nnz n) (data out) 0) as [res|] eqn:Hc;
      [|done].
    assert (Reshape.nnz n ≤ length (data inp)
            ∧ Reshape.nnz n ≤ length (data out)) as [Hli Hlo].
    { apply (copy_is_Some (data inp) (Reshape.nnz n) 0 (data out) 0);
        [lia | lia | by rewrite Hc]. }
    rewrite copy_front in Hc by done. injection Hc as <-.
    injection Hrun as <-. by exists i0, o0, inp, out.
Qed.

(** X1.  On two different matrices evaluateGen has a defined result exactly
    when each of the two buffers holds at least [nnz] values: [std::copy]
    runs over [nnz()] elements of both, whatever their sizes. *)
Theorem Reshape_evaluateGen_defined_iff {T : Type} n input output
    (h : gmap addr (Matrix T)) i0 o0 inp out :
  input !! 0 = Some i0 -> output !! 0 = Some o0 -> i0 ≠ o0 ->
  h !! i0 = Some inp -> h !! o0 = Some out ->
  is_Some (Reshape.evaluateGen n input output h)
  ↔ Reshape.nnz n ≤ length (data inp) ∧ Reshape.nnz n ≤ length (data out).
Proof.
  intros Hi Ho Hne Hinp Hout.
  rewrite (evaluateGen_distinct n input output h i0 o0 inp out) by done.
  rewrite <- (copy_is_Some (data inp) (Reshape.nnz n) 0 (data out) 0) by lia.
  destruct (copy _ _ _ _ _); simpl; split; intros [? ?]; by eauto.
Qed.

(** X2.  Evaluating again changes nothing: whenever evaluateGen returns a
    store, the same call on that store returns it unchanged. *)
Theorem Reshape_evaluateGen_idempotent {T : Type} n input output
    (h h' : gmap addr (Matrix T)) :
  Reshape.evaluateGen n input output h = Some h' ->
  Reshape.evaluateGen n input output h' = Some h'.
Proof.
  intros Hrun. destruct (evaluateGen_inv _ _ _ _ _ Hrun)
    as [(p & Hi & Ho & ->)|(i0 & o0 & inp & out & Hi & Ho & Hne & Hinp & Hout
                             & Hli & Hlo & ->)]; [done|].
  rewrite (evaluateGen_run n input output _ i0 o0 inp
             (set_data out (take (Reshape.nnz n) (data inp)
                            ++ drop (Reshape.nnz n) (data out))));
    try done.
  - f_equal. rewrite insert_insert_eq. f_equal. unfold set_data. simpl.
    f_equal. f_equal. rewrite drop_app_ge by (rewrite length_take; lia).
    rewrite length_take, drop_drop. f_equal. lia.
  - by rewrite lookup_insert_ne.
  - by rewrite lookup_insert_eq.
  - simpl. rewrite length_app, length_take, length_drop. lia.
Qed.

(** X3.  evaluateGen and propagateSparsity keep the layout of the store:
    when they return, the store holds matrices at the same addresses as
    before, each with the pattern and the number of stored values it
    had. *)
Theorem Reshape_numeric_same_layout n input output :
  (∀ (T : Type) (h h' : gmap addr (Matrix T)),
     Reshape.evaluateGen n input output h = Some h' -> same_layout h h')
  ∧ (∀ (fwd : bool) (h h' : gmap addr (Matrix bvec_t)),
       Reshape.propagateSparsity n input output fwd h = Some h' ->
       same_layout h h').
Proof.
  assert (Hrefl : ∀ (T : Type) (h : gmap addr (Matrix T)), same_layout h h).
  { intros T h p. by destruct (h !! p). }
  assert (Hins : ∀ (T : Type) (h h' : gmap addr (Matrix T)) p m d,
    same_layout h h' -> h' !! p = Some m -> length d = length (data m) ->
    same_layout h (<[p := set_data m d]> h')).
  { intros T h h' p m d Hsame Hm Hd q. specialize (Hsame q).
    destruct (decide (p = q)) as [<-|Hne].
    - rewrite lookup_insert_eq. rewrite Hm in Hsame.
      destruct (h !! p); [|done]. simpl. destruct Hsame. split; congruence.
    - by rewrite lookup_insert_ne. }
  split.
  - intros T h h' Hrun. destruct (evaluateGen_inv _ _ _ _ _ Hrun)
      as [(p & Hi & Ho & ->)|(i0 & o0 & inp & out & Hi & Ho & Hne & Hinp & Hout
                               & Hli & Hlo & ->)]; [done|].
    apply Hins; [done | done |].
    rewrite length_app, length_take, length_drop. lia.
  - intros fwd h h'. unfold Reshape.propagateSparsity. intros Hrun.
    destruct (input !! 0) as [i0|]; [|done].
    destruct (output !! 0) as [o0|]; [|done]. simpl in Hrun.
    destruct (decide (i0 = o0)) as [->|Hne]; [by injection Hrun as <-|].
    destruct (h !! o0) as [out|] eqn:Hout; [|done].
    destruct (h !! i0) as [inp|] eqn:Hinp; [|done]. simpl in Hrun.
    destruct fwd.
    + destruct (copy (data inp) 0 (length (data inp)) (data out) 0)
        as [res|] eqn:Hc; [|done].
      assert (length (data inp) ≤ length (data out)) as Hlen.
      { apply (copy_is_Some (data inp) (length (data inp)) 0 (data out) 0);
          [lia | lia | by rewrite Hc]. }
      rewrite copy_front in Hc by done. injection Hc as <-.
      injection Hrun as <-. apply Hins; [done | done |].
      rewrite length_app, length_take, length_drop. lia.
    + destruct (for_range 0 (length (data inp)) Reshape.bwd_step
                  (data inp, data out)) as [[a r]|] eqn:Hloop; [|done].
      simpl in Hrun. injection Hrun as <-.
      destruct (bwd_loop_lengths _ _ _ _ Hloop) as [Ha Hr]. simpl in Ha, Hr.
      apply Hins; [apply Hins |..]; try done.
      by rewrite lookup_insert_ne.
Qed.

(** X4.  Two Reshape nodes in a chain evaluate like the second one applied
    to the first one's dependency: with three different buffers of at least
    [nnz] values and nodes of the same nonzero count, evaluating the first
    node from [a] to [b] and then the second from [b] to [c] leaves in [c],
    and in every buffer but [b], what evaluating the second node from [a]
    to [c] leaves. *)
Theorem Reshape_evaluateGen_chain {T : Type} n1 n2 (h : gmap addr (Matrix T))
    a b c ma mb mc :
  a ≠ b -> b ≠ c -> a ≠ c ->
  h !! a = Some ma -> h !! b = Some mb -> h !! c = Some mc ->
  Reshape.nnz n1 = Reshape.nnz n2 ->
  Reshape.nnz n1 ≤ length (data ma) -> Reshape.nnz n1 ≤ length (data mb) ->
  Reshape.nnz n1 ≤ length (data mc) ->
  ∃ h1 h2 h3,
    Reshape.evaluateGen n1 [a] [b] h = Some h1
    ∧ Reshape.evaluateGen n2 [b] [c] h1 = Some h2
    ∧ Reshape.evaluateGen n2 [a] [c] h = Some h3
    ∧ ∀ p, p ≠ b -> h2 !! p = h3 !! p.
Proof.
  intros Hab Hbc Hac Ha Hb Hc Hnnz Hla Hlb Hlc.
  eexists _, _, _. split.
  { by apply (evaluateGen_run n1 [a] [b] h a b ma mb). }
  split.
  { apply (evaluateGen_run n2 [b] [c] _ b c
             (set_data mb (take (Reshape.nnz n1) (data ma)
                           ++ drop (Reshape.nnz n1) (data mb))) mc);
      try done.
    - by rewrite lookup_insert_eq.
    - by rewrite lookup_insert_ne.
    - simpl. rewrite length_app, length_take, length_drop. lia.
    - lia. }
  split.
  { apply (evaluateGen_run n2 [a] [c] h a c ma mc); try done; lia. }
  intros p Hp. destruct (decide (p = c)) as [->|Hpc].
  - rewrite !lookup_insert_eq. do 3 f_equal. simpl. rewrite <- Hnnz.
    rewrite take_app_le by (rewrite length_take; lia).
    rewrite take_take. f_equal. lia.
  - by rewrite !lookup_insert_ne.
Qed.

End NumericMore.

(** ** Sparsity propagation: lengths, repetition, order *)

(** Lookups through a stack of updates at addresses known to be equal or
    different. *)
Ltac store_lookup :=
  repeat first [ rewrite lookup_insert_eq | rewrite lookup_insert_ne by done ].

Lemma zip_lor_take (a r : list bvec_t) :
  zip_with Z.lor a (take (length a) r) = zip_with Z.lor a r.
Proof.
  apply list_eq. intros i. rewrite !lookup_zip_with.
  destruct (a !! i) as [x|] eqn:Hx; [|done]. simpl.
  apply lookup_lt_Some in Hx. by rewrite lookup_take_lt.
Qed.

Lemma zip_lor_zeros (a t : list bvec_t) (k : nat) :
  length a = k -> zip_with Z.lor a (replicate k 0%Z ++ t) = a.
Proof.
  intros <-. apply list_eq. intros i. rewrite lookup_zip_with.
  destruct (a !! i) as [x|] eqn:Hx; [|done]. simpl.
  apply lookup_lt_Some in Hx.
  rewrite lookup_app_l by (rewrite length_replicate; lia).
  rewrite lookup_replicate_2 by done. simpl. by rewrite Z.lor_0_r.
Qed.

Lemma zip_lor_self (a t : list bvec_t) : zip_with Z.lor a (a ++ t) = a.
Proof.
  apply list_eq. intros i. rewrite lookup_zip_with.
  destruct (a !! i) as [x|] eqn:Hx; [|done]. simpl.
  rewrite lookup_app_l by by eapply lookup_lt_Some.
  rewrite Hx. simpl. by rewrite Z.lor_diag.
Qed.

Lemma zip_lor_swap (a b c : list bvec_t) :
  zip_with Z.lor (zip_with Z.lor a b) c = zip_with Z.lor (zip_with Z.lor a c) b.
Proof.
  apply list_eq. intros i. rewrite !lookup_zip_with.
  destruct (a !! i) as [x|]; [|done]. simpl.
  destruct (b !! i) as [y|], (c !! i) as [z|]; simpl; try done.
  f_equal. rewrite <- !Z.lor_assoc. f_equal. apply Z.lor_comm.
Qed.

Lemma bwd_loop_None count : ∀ k (st : list bvec_t * list bvec_t),
  k ≤ length st.2 -> length st.2 < k + count ->
  for_range k count Reshape.bwd_step st = None.
Proof.
  induction count as [|c IH]; intros k st Hk Hlen; [lia|]. simpl.
  destruct (Reshape.bwd_step k st) as [st1|] eqn:Hstep; [|done]. simpl.
  unfold Reshape.bwd_step in Hstep.
  destruct (st.1 !! k) as [x|]; simpl in Hstep; [|done].
  destruct (st.2 !! k) as [y|] eqn:Hy; simpl in Hstep; [|done].
  injection Hstep as <-. apply lookup_lt_Some in Hy.
  apply IH; simpl; rewrite length_insert; lia.
Qed.

Section SparsityMore.
Context {MX : Type} `{MXInterface MX}.
Implicit Types (n : Reshape.Node MX) (input output : list addr).
Implicit Types (h : gmap addr (Matrix bvec_t)).

Lemma propagate_forward_run n input output h i0 o0 inp out :
  input !! 0 = Some i0 -> output !! 0 = Some o0 -> i0 ≠ o0 ->
  h !! i0 = Some inp -> h !! o0 = Some out ->
  length (data inp) ≤ length (data out) ->
  Reshape.propagateSparsity n input output true h
  = Some (<[o0 := set_data out (data inp
                                ++ drop (length (data inp)) (data out))]> h).
Proof.
  intros Hi Ho Hne Hinp Hout Hlen. unfold Reshape.propagateSparsity.
  rewrite Hi, Ho. simpl. rewrite decide_False by done.
  rewrite Hout, Hinp. simpl. rewrite copy_front by lia. simpl.
  by rewrite firstn_all.
Qed.

Lemma propagate_backward_run n input output h i0 o0 inp out :
  input !! 0 = Some i0 -> output !! 0 = Some o0 -> i0 ≠ o0 ->
  h !! i0 = Some inp -> h !! o0 = Some out ->
  length (data inp) ≤ length (data out) ->
  Reshape.propagateSparsity n input output false h
  = Some (<[o0 := set_data out (replicate (length (data inp)) 0%Z
                                ++ drop (length (data inp)) (data out))]>
            (<[i0 := set_data inp (zip_with Z.lor (data inp) (data out))]> h)).
Proof.
  intros Hi Ho Hne Hinp Hout Hlen. unfold Reshape.propagateSparsity.
  rewrite Hi, Ho. simpl. rewrite decide_False by done.
  rewrite Hout, Hinp. simpl. rewrite bwd_loop_spec by lia. simpl.
  by rewrite zip_lor_take.
Qed.

Lemma propagate_short_output n input output (fwd : bool) h i0 o0 inp out :
  input !! 0 = Some i0 -> output !! 0 = Some o0 -> i0 ≠ o0 ->
  h !! i0 = Some inp -> h !! o0 = Some out ->
  length (data out) < length (data inp) ->
  Reshape.propagateSparsity n input output fwd h = None.
Proof.
  intros Hi Ho Hne Hinp Hout Hlen. unfold Reshape.propagateSparsity.
  rewrite Hi, Ho. simpl. rewrite decide_False by done.
  rewrite Hout, Hinp. simpl. destruct fwd.
  - destruct (copy (data inp) 0 (length (data inp)) (data out) 0) eqn:Hc;
      [|done].
    assert (0 + length (data inp) ≤ length (data inp)
            ∧ 0 + length (data inp) ≤ length (data out)) as [_ ?]; [|lia].
    apply copy_is_Some; [lia | lia | by rewrite Hc].
  - rewrite bwd_loop_None; [done | simpl; lia | simpl; lia].
Qed.

(** Every return of propagateSparsity is the quick return or a run on two
    different matrices, the output's buffer at least as long as the
    dependency's. *)
Lemma propagate_inv n input output (fwd : bool) h h' :
  Reshape.propagateSparsity n input output fwd h = Some h' ->
  (∃ p, input !! 0 = Some p ∧ output !! 0 = Some p ∧ h' = h)
  ∨ (∃ i0 o0 inp out,
       input !! 0 = Some i0 ∧ output !! 0 = Some o0 ∧ i0 ≠ o0
       ∧ h !! i0 = Some inp ∧ h !! o0 = Some out
       ∧ length (data inp) ≤ length (data out)).
Proof.
  intros Hrun. pose proof Hrun as Hrun'.
  unfold Reshape.propagateSparsity in Hrun.
  destruct (input !! 0) as [i0|] eqn:Hi; [|done].
  destruct (output !! 0) as [o0|] eqn:Ho; [|done]. simpl in Hrun.
  destruct (decide (i0 = o0)) as [->|Hne].
  - left. exists o0. by injection Hrun as <-.
  - right. destruct (h !! o0) as [out|] eqn:Hout; [|done].
    destruct (h !! i0) as [inp|] eqn:Hinp; [|done].
    exists i0, o0, inp, out. repeat split; try done.
    destruct (decide (length (data inp) ≤ length (data out))); [done|].
    rewrite (propagate_short_output n input output fwd h i0 o0 inp out)
      in Hrun'; [done..|lia].
Qed.

(** X5.  Forward sparsity propagation is the numeric evaluation of the node
    run on the tag words: whenever the dependency's buffer holds exactly
    [nnz] words, the two calls give the same result, undefined cases
    included. *)
Theorem Reshape_propagate_forward_is_evaluate n input output h i0 inp :
  input !! 0 = Some i0 -> h !! i0 = Some inp ->
  length (data inp) = Reshape.nnz n ->
  Reshape.propagateSparsity n input output true h
  = Reshape.evaluateGen n input output h.
Proof.
  intros Hi Hinp Hlen. unfold Reshape.propagateSparsity, Reshape.evaluateGen.
  rewrite Hi. simpl. destruct (output !! 0) as [o0|]; [|done]. simpl.
  case_decide; [done|]. destruct (h !! o0) as [out|]; [|done]. simpl.
  rewrite Hinp. simpl. by rewrite Hlen.
Qed.

(** X6.  When the output pointer equals the input pointer, sparsity
    propagation returns at once in both directions: the store is unchanged,
    no tag is copied, merged or cleared, and no matrix is dereferenced. *)
Theorem Reshape_propagateSparsity_inplace n input output (fwd : bool) h p :
  input !! 0 = Some p -> output !! 0 = Some p ->
  Reshape.propagateSparsity n input output fwd h = Some h.
Proof.
  intros Hi Ho. unfold Reshape.propagateSparsity. rewrite Hi, Ho. simpl.
  by rewrite decide_True.
Qed.

(** X7.  Sparsity propagation runs over the length of the dependency's
    buffer, not over [nnz()]: on two different matrices it is undefined when
    the output's buffer is shorter, and otherwise it returns with the first
    words of the output set (to the dependency's words forward, to zero
    backward) and the output's words beyond that length kept. *)
Theorem Reshape_propagateSparsity_lengths n input output (fwd : bool) h
    i0 o0 inp out :
  input !! 0 = Some i0 -> output !! 0 = Some o0 -> i0 ≠ o0 ->
  h !! i0 = Some inp -> h !! o0 = Some out ->
  (length (data out) < length (data inp) ->
   Reshape.propagateSparsity n input output fwd h = None)
  ∧ (length (data inp) ≤ length (data out) ->
     ∃ h', Reshape.propagateSparsity n input output fwd h = Some h'
       ∧ h' !! o0
         = Some (mkMatrix (m_sparsity out)
                   ((if fwd then data inp
                     else replicate (length (data inp)) 0%Z)
                    ++ drop (length (data inp)) (data out)))).
Proof.
  intros Hi Ho Hne Hinp Hout. split; intros Hlen.
  - by apply (propagate_short_output n input output fwd h i0 o0 inp out).
  - destruct fwd.
    + rewrite (propagate_forward_run n input output h i0 o0 inp out) by done.
      eexists. split; [done|]. by rewrite lookup_insert_eq.
    + rewrite (propagate_backward_run n input output h i0 o0 inp out) by done.
      eexists. split; [done|]. by rewrite lookup_insert_eq.
Qed.

(** X8.  A forward sweep followed by a backward sweep through the node gives
    the dependency back its own tags: with two different buffers of the same
    length, the store after both differs from the store before only in the
    output's words, which are all zero. *)
Theorem Reshape_propagate_forward_backward n input output h i0 o0 inp out :
  input !! 0 = Some i0 -> output !! 0 = Some o0 -> i0 ≠ o0 ->
  h !! i0 = Some inp -> h !! o0 = Some out ->
  length (data inp) = length (data out) ->
  (h1 ← Reshape.propagateSparsity n input output true h;
   Reshape.propagateSparsity n input output false h1)
  = Some (<[o0 := mkMatrix (m_sparsity out)
                    (replicate (length (data out)) 0%Z)]> h).
Proof.
  intros Hi Ho Hne Hinp Hout Hlen.
  rewrite (propagate_forward_run n input output h i0 o0 inp out)
    by (done || lia). simpl.
  rewrite (propagate_backward_run n input output _ i0 o0 inp
             (set_data out (data inp ++ drop (length (data inp)) (data out))));
    try done.
  - f_equal. simpl. rewrite zip_lor_self, set_data_id.
    rewrite (insert_id (<[o0 := _]> h) i0 inp)
      by (by rewrite lookup_insert_ne).
    rewrite insert_insert_eq. f_equal. unfold set_data. simpl. f_equal.
    rewrite drop_app_length, Hlen, drop_all. by rewrite app_nil_r.
  - by rewrite lookup_insert_ne.
  - by rewrite lookup_insert_eq.
  - simpl. rewrite length_app, length_drop. lia.
Qed.

(** X9.  A consumed output taints nothing a second time: whenever backward
    propagation returns a store, the same call on that store returns it
    unchanged. *)
Theorem Reshape_propagate_backward_twice n input output h h' :
  Reshape.propagateSparsity n input output false h = Some h' ->
  Reshape.propagateSparsity n input output false h' = Some h'.
Proof.
  intros Hrun. destruct (propagate_inv _ _ _ _ _ _ Hrun)
    as [(p & Hi & Ho & ->)|(i0 & o0 & inp & out & Hi & Ho & Hne & Hinp & Hout
                             & Hlen)]; [done|].
  rewrite (propagate_backward_run n input output h i0 o0 inp out) in Hrun
    by done.
  injection Hrun as <-.
  rewrite (propagate_backward_run n input output _ i0 o0
             (set_data inp (zip_with Z.lor (data inp) (data out)))
             (set_data out (replicate (length (data inp)) 0%Z
                            ++ drop (length (data inp)) (data out))));
    try done.
  - f_equal. simpl. rewrite length_zip_with_l by lia.
    rewrite zip_lor_zeros by (by apply length_zip_with_l).
    apply map_eq. intros q. destruct (decide (q = o0)) as [->|Hqo].
    + rewrite !lookup_insert_eq. unfold set_data. simpl. do 2 f_equal.
      f_equal. rewrite drop_app_ge by (rewrite length_replicate; lia).
      by rewrite length_replicate, Nat.sub_diag.
    + rewrite !(lookup_insert_ne _ o0) by done.
      destruct (decide (q = i0)) as [->|Hqi].
      * by rewrite !lookup_insert_eq.
      * by rewrite !lookup_insert_ne.
  - by rewrite lookup_insert_ne, lookup_insert_eq.
  - by rewrite lookup_insert_eq.
  - simpl. rewrite length_zip_with_l by lia.
    rewrite length_app, length_replicate, length_drop. lia.
Qed.

(** X10.  Two consumers of one dependency may propagate backward in either
    order: with three different buffers, the outputs at least as long as
    the dependency, both orders return the same store, in which the
    dependency's words are the OR of its own words with both outputs'. *)
Theorem Reshape_propagate_backward_commute n1 n2 h a b c ma mb mc :
  a ≠ b -> a ≠ c -> b ≠ c ->
  h !! a = Some ma -> h !! b = Some mb -> h !! c = Some mc ->
  length (data ma) ≤ length (data mb) -> length (data ma) ≤ length (data mc) ->
  ∃ h',
    (h1 ← Reshape.propagateSparsity n1 [a] [b] false h;
     Reshape.propagateSparsity n2 [a] [c] false h1) = Some h'
    ∧ (h1 ← Reshape.propagateSparsity n2 [a] [c] false h;
       Reshape.propagateSparsity n1 [a] [b] false h1) = Some h'
    ∧ h' !! a
      = Some (mkMatrix (m_sparsity ma)
                (zip_with Z.lor (zip_with Z.lor (data ma) (data mb)) (data mc))).
Proof.
  intros Hab Hac Hbc Ha Hb Hc Hlb Hlc.
  rewrite (propagate_backward_run n1 [a] [b] h a b ma mb) by done.
  rewrite (propagate_backward_run n2 [a] [c] h a c ma mc) by done. simpl.
  rewrite (propagate_backward_run n2 [a] [c] _ a c
             (set_data ma (zip_with Z.lor (data ma) (data mb))) mc); try done;
    [| by rewrite lookup_insert_ne, lookup_insert_eq
     | by rewrite !lookup_insert_ne
     | simpl; rewrite length_zip_with_l by lia; lia ].
  rewrite (propagate_backward_run n1 [a] [b] _ a b
             (set_data ma (zip_with Z.lor (data ma) (data mc))) mb); try done;
    [| by rewrite lookup_insert_ne, lookup_insert_eq
     | by rewrite !lookup_insert_ne
     | simpl; rewrite length_zip_with_l by lia; lia ].
  simpl. rewrite !length_zip_with_l by lia.
  eexists. split; [done|]. split.
  - f_equal. apply map_eq. intros q.
    destruct (decide (q = a)) as [->|Hqa];
      [|destruct (decide (q = b)) as [->|Hqb];
        [|destruct (decide (q = c)) as [->|Hqc]]];
      store_lookup; try done.
    unfold set_data. simpl. by rewrite zip_lor_swap.
  - by store_lookup.
Qed.

Lemma Forall_zip_lor (a b : list bvec_t) :
  Forall (fun w => (0 <= w < 2 ^ 64)%Z) a ->
  Forall (fun w => (0 <= w < 2 ^ 64)%Z) b ->
  Forall (fun w => (0 <= w < 2 ^ 64)%Z) (zip_with Z.lor a b).
Proof.
  intros Ha. revert b. induction Ha as [|x a Hx Ha IH]; intros b Hb; [done|].
  destruct Hb as [|y b Hy Hb]; [done|]. simpl.
  constructor; [by apply bvec_lor_range | by apply IH].
Qed.

(** X11.  Sparsity propagation keeps tag words 64-bit words: if every word
    of every buffer of the store is below 2^64 (and not negative), so is
    every word of the store it returns, in both directions, with no
    wrap-around. *)
Theorem Reshape_propagateSparsity_words n input output (fwd : bool) h h' :
  words_in_range h ->
  Reshape.propagateSparsity n input output fwd h = Some h' ->
  words_in_range h'.
Proof.
  intros Hwords Hrun. destruct (propagate_inv _ _ _ _ _ _ Hrun)
    as [(p & Hi & Ho & ->)|(i0 & o0 & inp & out & Hi & Ho & Hne & Hinp & Hout
                             & Hlen)]; [done|].
  pose proof (Hwords _ _ Hinp) as Hwi. pose proof (Hwords _ _ Hout) as Hwo.
  assert (Hins : ∀ (g : gmap addr (Matrix bvec_t)) q m d,
    words_in_range g -> Forall (fun w => (0 <= w < 2 ^ 64)%Z) d ->
    words_in_range (<[q := set_data m d]> g)).
  { intros g q m d Hg Hd r mr. destruct (decide (q = r)) as [<-|Hqr].
    - rewrite lookup_insert_eq. by intros [= <-].
    - rewrite lookup_insert_ne by done. apply Hg. }
  destruct fwd.
  - rewrite (propagate_forward_run n input output h i0 o0 inp out) in Hrun
      by done.
    injection Hrun as <-. apply Hins; [done|].
    apply Forall_app. split; [done | by apply Forall_drop].
  - rewrite (propagate_backward_run n input output h i0 o0 inp out) in Hrun
      by done.
    injection Hrun as <-. apply Hins; [apply Hins; [done|] |].
    + by apply Forall_zip_lor.
    + apply Forall_app. split; [|by apply Forall_drop].
      apply Forall_replicate. lia.
Qed.

End SparsityMore.

(** ** Symbolic-graph evaluation: output, frame, table sizes *)

Lemma for_range_ext {S : Type} (body body' : nat -> S -> option S) count :
  ∀ from (s : S),
  (∀ d t, from ≤ d < from + count -> body d t = body' d t) ->
  for_range from count body s = for_range from count body' s.
Proof.
  induction count as [|c IH]; intros from s Hext; [done|]. simpl.
  rewrite Hext by lia. destruct (body' from s) as [s1|]; [|done]. simpl.
  apply IH. intros d t Hd. apply Hext. lia.
Qed.

Lemma for_range_fail {S : Type} (body : nat -> S -> option S) count :
  ∀ from (s : S) k,
  from ≤ k < from + count -> (∀ t, body k t = None) ->
  for_range from count body s = None.
Proof.
  induction count as [|c IH]; intros from s k Hk Hfail; [lia|]. simpl.
  destruct (body from s) as [s1|] eqn:Hbody; [|done]. simpl.
  destruct (decide (k = from)) as [->|Hne]; [by rewrite Hfail in Hbody|].
  apply (IH _ _ k); [lia | done].
Qed.

Lemma slot0_app_l (v e : MXPtrVV) d :
  d < length v -> slot0 (v ++ e) d = slot0 v d.
Proof. intros Hd. unfold slot0. by rewrite lookup_app_l. Qed.

Lemma slot0_ge (v : MXPtrVV) d : length v ≤ d -> slot0 v d = None.
Proof. intros Hd. unfold slot0. by rewrite lookup_ge_None_2. Qed.

Section SymbolicMore.
Context {MX : Type} `{MXInterface MX}.

Lemma fwd_loop_frame (forward : MX -> MX) (fwdSeed fwdSens : MXPtrVV)
    fseeds fsens (t0 : gmap addr MX) :
  slots fwdSeed (length fwdSens) fseeds ->
  slots fwdSens (length fwdSens) fsens ->
  Forall (fun p => is_Some (t0 !! p)) (fseeds ++ fsens) ->
  ∃ t, for_range 0 (length fwdSens) (fwd_body forward fwdSeed fwdSens) t0
       = Some t
    ∧ (∀ r, r ∉ fsens -> t !! r = t0 !! r)
    ∧ (∀ r, is_Some (t !! r) ↔ is_Some (t0 !! r)).
Proof.
  intros Hseeds Hsens Halloc.
  apply Forall_app in Halloc as [Haseed Hasens].
  rewrite Forall_forall in Haseed, Hasens.
  apply (for_range_inv
           (fun _ t => (∀ r, r ∉ fsens -> t !! r = t0 !! r)
                       ∧ (∀ r, is_Some (t !! r) ↔ is_Some (t0 !! r))));
    [done|].
  intros d t [_ Hd] [Hfr Hdom]. simpl in Hd.
  destruct (slots_lookup _ _ _ d Hseeds Hd) as (p & Hp & Hp0).
  destruct (slots_lookup _ _ _ d Hsens Hd) as (q & Hq & Hq0).
  assert (Hqin : q ∈ fsens) by by eapply list_elem_of_lookup_2.
  destruct (proj2 (Hdom p)) as [x Hx].
  { apply Haseed. by eapply list_elem_of_lookup_2. }
  exists (<[q := forward x]> t). split; [|split].
  - unfold fwd_body. rewrite Hq0, Hp0. simpl. rewrite Hx. simpl.
    apply store_at_Some, Hdom, Hasens, Hqin.
  - intros r Hr. rewrite lookup_insert_ne; [by apply Hfr|].
    by intros ->.
  - intros r. rewrite lookup_insert_is_Some', Hdom. split; [|by right].
    intros [<-|?]; [by apply Hasens | done].
Qed.

Lemma adj_loop_frame (adjoint : MX -> MX) (adjSeed adjSens : MXPtrVV)
    aseeds asens (u0 : gmap addr MX) :
  slots adjSeed (length adjSeed) aseeds ->
  slots adjSens (length adjSeed) asens ->
  Forall (fun p => is_Some (u0 !! p)) (aseeds ++ asens) ->
  ∃ u, for_range 0 (length adjSeed) (adj_body adjoint adjSeed adjSens) u0
       = Some u
    ∧ (∀ r, r ∉ asens ++ aseeds -> u !! r = u0 !! r)
    ∧ (∀ r, is_Some (u !! r) ↔ is_Some (u0 !! r)).
Proof.
  intros Hseeds Hsens Halloc.
  apply Forall_app in Halloc as [Haseed Hasens].
  rewrite Forall_forall in Haseed, Hasens.
  apply (for_range_inv
           (fun _ u => (∀ r, r ∉ asens ++ aseeds -> u !! r = u0 !! r)
                       ∧ (∀ r, is_Some (u !! r) ↔ is_Some (u0 !! r))));
    [done|].
  intros d u [_ Hd] [Hfr Hdom]. simpl in Hd.
  destruct (slots_lookup _ _ _ d Hseeds Hd) as (p & Hp & Hp0).
  destruct (slots_lookup _ _ _ d Hsens Hd) as (q & Hq & Hq0).
  assert (Hpin : p ∈ aseeds) by by eapply list_elem_of_lookup_2.
  assert (Hqin : q ∈ asens) by by eapply list_elem_of_lookup_2.
  destruct (proj2 (Hdom p)) as [w Hw]; [by apply Haseed|].
  destruct (proj2 (Hdom q)) as [a Ha]; [by apply Hasens|].
  exists (<[p := mx_empty]> (<[q := addToSum a (adjoint w)]> u)).
  split; [|split].
  - unfold adj_body. rewrite Hp0, Hq0. simpl. rewrite Hw, Ha. simpl.
    rewrite store_at_Some by eauto. simpl.
    apply store_at_Some, lookup_insert_is_Some'. eauto.
  - intros r Hr. apply not_elem_of_app in Hr as [Hr1 Hr2].
    rewrite !lookup_insert_ne; [by apply Hfr; apply not_elem_of_app | |];
      by intros ->.
  - intros r. rewrite !lookup_insert_is_Some', Hdom. split; [|by auto].
    intros [<-|[<-|?]]; [by apply Haseed | by apply Hasens | done].
Qed.

(** X12.  On a valid call with separate slots, the output slot holds, when
    evaluateMX returns, the reshape of the input expression to the node's
    own shape if the output was not given, and what it held before if the
    output was given. *)
Theorem Reshape_evaluateMX_output (n : Reshape.Node MX) (input output : MXPtrV)
    (fwdSeed fwdSens adjSeed adjSens : MXPtrVV) (output_given : bool)
    (s : gmap addr MX) i0 o0 fseeds fsens aseeds asens x :
  call_ok input output fwdSeed fwdSens adjSeed adjSens s
    i0 o0 fseeds fsens aseeds asens ->
  s !! i0 = Some x ->
  ∃ s', Reshape.evaluateMX n input output fwdSeed fwdSens adjSeed adjSens
          output_given s = Some s'
    ∧ s' !! o0 = (if output_given then s !! o0
                  else Some (reshape x (Reshape.shape n))).
Proof.
  intros Hok Hx. rewrite Reshape_evaluateMX_sweep.
  destruct (sweep_spec (fun x => reshape x (Reshape.shape n))
              (fun x => reshape x (Reshape.shape n))
              (fun w => reshape w (mx_shape (Reshape.dep n)))
              _ _ _ _ _ _ output_given _ _ _ _ _ _ _ Hok)
    as (s' & Hrun & Hout & _).
  exists s'. split; [done|]. by apply Hout.
Qed.

(** X13.  On a valid call that is not in place, whatever the slots share,
    evaluateMX writes nothing but the forward sensitivities, the adjoint
    sensitivities, the adjoint seeds and, if it was not given, the output:
    every slot that is none of these (so the input and the forward seeds,
    where they are not shared with one of these) holds what it held, and the
    store has the same objects as before. *)
Theorem Reshape_evaluateMX_frame (n : Reshape.Node MX) (input output : MXPtrV)
    (fwdSeed fwdSens adjSeed adjSens : MXPtrVV) (output_given : bool)
    (s : gmap addr MX) i0 o0 fseeds fsens aseeds asens :
  call_valid input output fwdSeed fwdSens adjSeed adjSens s
    i0 o0 fseeds fsens aseeds asens ->
  ∃ s', Reshape.evaluateMX n input output fwdSeed fwdSens adjSeed adjSens
          output_given s = Some s'
    ∧ (∀ r, r ∉ (if output_given then [] else [o0])
                ++ fsens ++ asens ++ aseeds ->
            s' !! r = s !! r)
    ∧ (∀ r, is_Some (s' !! r) ↔ is_Some (s !! r)).
Proof.
  intros [Hi Ho Hne Hfseeds Hfsens Haseeds Hasens Halloc].
  rewrite !Forall_cons, !Forall_app in Halloc.
  destruct Halloc as ([x0 Hx0] & Hao & Haf & Has & Haa & Hab).
  rewrite Forall_forall in Haf, Has, Haa, Hab.
  assert (∃ s1,
    (if output_given then Some s
     else x ← s !! i0; store_at o0 (reshape x (Reshape.shape n)) s) = Some s1
    ∧ (∀ r, r ∉ (if output_given then [] else [o0]) -> s1 !! r = s !! r)
    ∧ (∀ r, is_Some (s1 !! r) ↔ is_Some (s !! r)))
    as (s1 & Hs1 & Hs1_fr & Hs1_dom).
  { destruct output_given.
    - by exists s.
    - exists (<[o0 := reshape x0 (Reshape.shape n)]> s). rewrite Hx0. simpl.
      rewrite store_at_Some by done. split; [done|]. split.
      + intros r Hr. rewrite lookup_insert_ne; [done|].
        intros ->. apply Hr. by apply list_elem_of_here.
      + intros r. rewrite lookup_insert_is_Some'. split; [|by right].
        by intros [<-|?]. }
  destruct (fwd_loop_frame (fun x => reshape x (Reshape.shape n))
              fwdSeed fwdSens fseeds fsens s1)
    as (s2 & Hs2 & Hs2_fr & Hs2_dom); [done | done | |].
  { apply Forall_app. rewrite !Forall_forall.
    split; intros p Hp; apply Hs1_dom; auto. }
  destruct (adj_loop_frame (fun w => reshape w (mx_shape (Reshape.dep n)))
              adjSeed adjSens aseeds asens s2)
    as (s' & Hs' & Hs'_fr & Hs'_dom); [done | done | |].
  { apply Forall_app. rewrite !Forall_forall.
    split; intros p Hp; apply Hs2_dom, Hs1_dom; auto. }
  exists s'. split; [|split].
  - unfold Reshape.evaluateMX. rewrite Hi, Ho. simpl.
    rewrite decide_False by done. rewrite Hs1. simpl.
    unfold fwd_body in Hs2. rewrite Hs2. simpl. exact Hs'.
  - intros r Hr. rewrite !not_elem_of_app in Hr.
    destruct Hr as (Hr1 & Hr2 & Hr3 & Hr4).
    rewrite Hs'_fr, Hs2_fr, Hs1_fr; try done. by apply not_elem_of_app.
  - intros r. by rewrite Hs'_dom, Hs2_dom, Hs1_dom.
Qed.

(** X14.  The direction counts are read off [fwdSens] and [adjSeed]: a call
    that is not in place has no defined result when [fwdSeed] has fewer rows
    than [fwdSens], or [adjSens] fewer rows than [adjSeed]. *)
Theorem Reshape_evaluateMX_short_tables (n : Reshape.Node MX)
    (input output : MXPtrV) (fwdSeed fwdSens adjSeed adjSens : MXPtrVV)
    (output_given : bool) (s : gmap addr MX) i0 o0 :
  input !! 0 = Some i0 -> output !! 0 = Some o0 -> i0 ≠ o0 ->
  length fwdSeed < length fwdSens ∨ length adjSens < length adjSeed ->
  Reshape.evaluateMX n input output fwdSeed fwdSens adjSeed adjSens
    output_given s = None.
Proof.
  intros Hi Ho Hne Hshort. unfold Reshape.evaluateMX.
  rewrite Hi, Ho. simpl. rewrite decide_False by done.
  match goal with |- ?m ≫= _ = None => destruct m as [s1|]; [|done] end.
  simpl.
  match goal with |- ?m ≫= _ = None => destruct m as [s2|] eqn:Hfwd; [|done] end.
  simpl. destruct Hshort as [Hshort|Hshort].
  - rewrite (for_range_fail _ _ 0 s1 (length fwdSeed)) in Hfwd; [done|lia|].
    intros t. rewrite (slot0_ge fwdSeed) by done.
    by destruct (slot0 fwdSens (length fwdSeed)).
  - apply (for_range_fail _ _ 0 s2 (length adjSens)); [lia|].
    intros t. rewrite (slot0_ge adjSens) by done.
    by destruct (slot0 adjSeed (length adjSens)).
Qed.

(** X15.  Rows of [fwdSeed] beyond the number of rows of [fwdSens], and
    rows of [adjSens] beyond the number of rows of [adjSeed], are never
    looked at: appending rows there changes nothing of the result. *)
Theorem Reshape_evaluateMX_extra_rows (n : Reshape.Node MX)
    (input output : MXPtrV) (fwdSeed fwdSens adjSeed adjSens : MXPtrVV)
    (more_seed more_sens : MXPtrVV) (output_given : bool) (s : gmap addr MX) :
  length fwdSens ≤ length fwdSeed -> length adjSeed ≤ length adjSens ->
  Reshape.evaluateMX n input output (fwdSeed ++ more_seed) fwdSens
    adjSeed (adjSens ++ more_sens) output_given s
  = Reshape.evaluateMX n input output fwdSeed fwdSens adjSeed adjSens
      output_given s.
Proof.
  intros Hfwd Hadj. unfold Reshape.evaluateMX.
  destruct (input !! 0) as [i0|]; [|done].
  destruct (output !! 0) as [o0|]; [|done]. simpl.
  case_decide; [done|].
  match goal with |- ?m ≫= _ = _ => destruct m as [s1|]; [|done] end.
  simpl.
  rewrite (for_range_ext _
             (fun d s => sens ← slot0 fwdSens d; seed ← slot0 fwdSeed d;
                         x ← s !! seed;
                         store_at sens (reshape x (Reshape.shape n)) s)).
  - match goal with |- ?m ≫= _ = _ => destruct m as [s2|]; [|done] end.
    simpl. apply for_range_ext. intros d t Hd.
    by rewrite slot0_app_l by lia.
  - intros d t Hd. by rewrite slot0_app_l by lia.
Qed.

End SymbolicMore.

(** ** Printing and code generation *)

Lemma string_app_assoc (a b c : string) : (a +:+ b) +:+ c = a +:+ (b +:+ c).
Proof.
  induction a as [|x a IH]; [done|].
  change (String x ((a +:+ b) +:+ c) = String x (a +:+ (b +:+ c))).
  by rewrite IH.
Qed.

Lemma take_drop_step {T : Type} (a b : list T) k x :
  a !! k = Some x -> k < length b ->
  <[k := x]> (take k a ++ drop k b) = take (S k) a ++ drop (S k) b.
Proof.
  intros Hx Hk. pose proof (lookup_lt_Some _ _ _ Hx) as Hka.
  rewrite insert_app_r_alt by (rewrite length_take; lia).
  rewrite length_take, Nat.min_l, Nat.sub_diag by lia.
  rewrite (take_S_r a k x) by done. rewrite <- app_assoc. f_equal.
  destruct (lookup_lt_is_Some_2 b k Hk) as [y Hy].
  rewrite <- (take_drop_middle b k y Hy) at 1.
  rewrite drop_app_length'; [done|]. rewrite length_take. lia.
Qed.

Lemma assign_loop_run {T : Type} (d s : addr) (h : gmap addr (Matrix T))
    inp out count :
  s ≠ d -> h !! s = Some inp -> h !! d = Some out ->
  ∀ from,
  from + count ≤ length (data inp) -> from + count ≤ length (data out) ->
  for_range from count (GeneratedC.assign d s)
    (<[d := set_data out (take from (data inp) ++ drop from (data out))]> h)
  = Some (<[d := set_data out (take (from + count) (data inp)
                               ++ drop (from + count) (data out))]> h).
Proof.
  intros Hne Hs Hd. induction count as [|c IH]; intros from Hli Hlo; simpl.
  - by rewrite Nat.add_0_r.
  - destruct (lookup_lt_is_Some_2 (data inp) from) as [x Hx]; [lia|].
    destruct (lookup_lt_is_Some_2
                (take from (data inp) ++ drop from (data out)) from)
      as [y Hy].
    { rewrite length_app, length_take, length_drop. lia. }
    assert (GeneratedC.assign d s from
              (<[d := set_data out (take from (data inp)
                                    ++ drop from (data out))]> h)
            = Some (<[d := set_data out (take (S from) (data inp)
                                         ++ drop (S from) (data out))]> h))
      as ->.
    { unfold GeneratedC.assign.
      rewrite (lookup_insert_ne _ d s) by congruence.
      rewrite Hs. simpl. rewrite Hx. simpl.
      rewrite lookup_insert_eq. simpl. rewrite Hy. simpl.
      rewrite insert_insert_eq.
      by rewrite take_drop_step by (done || lia). }
    simpl. replace (from + S c) with (S from + c) by lia.
    apply IH; lia.
Qed.

Lemma assign_loop_None {T : Type} (d s : addr) k l1 l2 count :
  s ≠ d -> l1 ≤ k ∨ l2 ≤ k ->
  ∀ from (t : gmap addr (Matrix T)) inp out,
  t !! s = Some inp -> t !! d = Some out ->
  length (data inp) = l1 -> length (data out) = l2 ->
  from ≤ k < from + count ->
  for_range from count (GeneratedC.assign d s) t = None.
Proof.
  intros Hne Hshort.
  induction count as [|c IH]; intros from t inp out Hs Hd Hl1 Hl2 Hk; [lia|].
  simpl. destruct (GeneratedC.assign d s from t) as [t'|] eqn:Hstep; [|done].
  simpl. unfold GeneratedC.assign in Hstep. rewrite Hs in Hstep.
  simpl in Hstep. destruct (data inp !! from) as [x|] eqn:Hx; [|done].
  simpl in Hstep. rewrite Hd in Hstep. simpl in Hstep.
  destruct (data out !! from) as [y|] eqn:Hy; [|done].
  simpl in Hstep. injection Hstep as <-.
  apply lookup_lt_Some in Hx, Hy.
  apply (IH _ _ inp (set_data out (<[from := x]> (data out)))).
  - by rewrite lookup_insert_ne.
  - by rewrite lookup_insert_eq.
  - done.
  - simpl. by rewrite length_insert.
  - lia.
Qed.


Section GeneratedText.
  Import GeneratedC.

Lemma strip_app (p text : string) : strip p (p +:+ text) = Some text.
Proof.
  induction p as [|a p IH]; [done|].
  change (String a p +:+ text) with (String a (p +:+ text)).
  simpl. by rewrite decide_True.
Qed.


Lemma span_app f (x rest : string) :
  all_chars f x -> stops f rest -> span f (x +:+ rest) = (x, rest).
Proof.
  intros Hx Hrest. induction x as [|a x IH].
  - destruct rest as [|b rest]; [done|]. simpl in *. by rewrite Hrest.
  - change (String a x +:+ rest) with (String a (x +:+ rest)). simpl in *.
    apply andb_True in Hx as [Ha Hx]. apply Is_true_true in Ha.
    by rewrite Ha, IH.
Qed.

Lemma pretty_N_go_app (x : N) : ∀ s r,
  pretty_N_go x s +:+ r = pretty_N_go x (s +:+ r).
Proof.
  induction (N.lt_wf_0 x) as [x _ IH]; intros s r.
  destruct (decide (x = 0%N)) as [->|Hx]; [by rewrite !pretty_N_go_0|].
  rewrite (pretty_N_go_step x s), (pretty_N_go_step x (s +:+ r)) by lia.
  by rewrite IH by (apply N.div_lt; lia).
Qed.

Lemma digit_pretty_N_char (d : N) :
  (d < 10)%N -> digit (pretty_N_char d) = Some d.
Proof.
  intros Hd.
  assert (d = 0 ∨ d = 1 ∨ d = 2 ∨ d = 3 ∨ d = 4 ∨ d = 5 ∨ d = 6 ∨ d = 7
          ∨ d = 8 ∨ d = 9)%N as Hcases by lia.
  repeat destruct Hcases as [->|Hcases]; try done. by subst.
Qed.

Lemma read_digits_pretty (x : N) : ∀ s,
  read_digits (pretty_N_go x s) 0 = read_digits s x.
Proof.
  induction (N.lt_wf_0 x) as [x _ IH]; intros s.
  destruct (decide (x = 0%N)) as [->|Hx]; [by rewrite pretty_N_go_0|].
  rewrite pretty_N_go_step by lia. rewrite IH by (apply N.div_lt; lia).
  simpl. rewrite digit_pretty_N_char by (apply N.mod_lt; lia).
  f_equal. pose proof (N.div_mod x 10). lia.
Qed.

Lemma read_digits_stop (rest : string) (acc : N) :
  starts_with_digit rest = false -> read_digits rest acc = (acc, rest).
Proof.
  destruct rest as [|a rest]; [done|]. simpl. unfold is_digit.
  destruct (digit a) as [d|]; [|done].
  intros Hd. by rewrite bool_decide_eq_true_2 in Hd.
Qed.

Lemma pretty_N_go_head (x : N) : ∀ s,
  (0 < x)%N ->
  ∃ a t d, pretty_N_go x s = String a t ∧ digit a = Some d ∧ d ≠ 0%N.
Proof.
  induction (N.lt_wf_0 x) as [x _ IH]; intros s Hx.
  rewrite pretty_N_go_step by done.
  destruct (decide (x `div` 10 = 0)%N) as [Hq|Hq].
  - rewrite Hq, pretty_N_go_0. eexists _, _, (x `mod` 10)%N.
    split; [done|]. split; [apply digit_pretty_N_char, N.mod_lt; lia|].
    pose proof (N.div_mod x 10 ltac:(lia)) as Hdm. rewrite Hq in Hdm. lia.
  - apply IH; [apply N.div_lt; lia | by apply N.neq_0_lt_0].
Qed.

Lemma read_decimal_nonzero (a : Ascii.ascii) (t : string) (d : N) :
  digit a = Some d -> d ≠ 0%N ->
  read_decimal (String a t) = Some (read_digits (String a t) 0).
Proof.
  intros Hd Hd0. unfold read_decimal. rewrite Hd. simpl.
  by rewrite decide_False.
Qed.

Lemma read_decimal_pretty (n : nat) (rest : string) :
  starts_with_digit rest = false ->
  read_decimal (pretty (Z.of_nat n) +:+ rest) = Some (N.of_nat n, rest).
Proof.
  intros Hrest. destruct n as [|n].
  - change (pretty (Z.of_nat 0) +:+ rest)
      with (String (pretty_N_char 0) rest).
    unfold read_decimal. rewrite digit_pretty_N_char by lia. simpl.
    by rewrite Hrest.
  - change (pretty (Z.of_nat (S n)))
      with (pretty_N_go (N.pos (Pos.of_succ_nat n)) "").
    rewrite pretty_N_go_app. change ("" +:+ rest) with rest.
    destruct (pretty_N_go_head (N.pos (Pos.of_succ_nat n)) rest)
      as (a & t & d & Heq & Hd & Hd0); [lia|].
    rewrite Heq, (read_decimal_nonzero a t d), <- Heq by done.
    by rewrite read_digits_pretty, read_digits_stop by done.
Qed.

Lemma is_name_chars (x : string) : is_name x -> all_chars is_ident_char x.
Proof.
  destruct x as [|a x]; [done|]. unfold is_name.
  rewrite !andb_True. tauto.
Qed.

Opaque strip span read_decimal.

Lemma parse_render (c : CopyLoop) :
  is_name (dst c) -> is_name (src c) -> parse (render c) = Some c.
Proof.
  intros Hd Hs. destruct c as [b d s]. simpl in *.
  unfold parse, render. simpl bound; simpl dst; simpl src.
  rewrite strip_app. simpl.
  rewrite read_decimal_pretty by done. simpl.
  rewrite strip_app. simpl.
  rewrite span_app; [|by apply is_name_chars|by lazy].
  rewrite strip_app. simpl.
  rewrite span_app; [|by apply is_name_chars|by lazy].
  rewrite strip_app. simpl.
  rewrite decide_True by done.
  by rewrite Nat2N.id.
Qed.

Transparent strip span read_decimal.

Lemma string_app_empty_r (a : string) : a +:+ "" = a.
Proof.
  induction a as [|x a IH]; [done|].
  change (String x (a +:+ "") = String x a). by rewrite IH.
Qed.

Lemma render_not_empty (c : CopyLoop) : render c ≠ "".
Proof. done. Qed.

End GeneratedText.

Section GenerateMore.
  Context {MX : Type} `{MXInterface MX}.
  Import GeneratedC.

Lemma copy_loop_is_evaluateGen {T : Type} (n : Reshape.Node MX) a0 r0
    (env : string -> option addr) (h : gmap addr (Matrix T)) i0 o0 inp out :
  env a0 = Some i0 -> env r0 = Some o0 -> i0 ≠ o0 ->
  h !! i0 = Some inp -> h !! o0 = Some out ->
  run (mkCopyLoop (Reshape.nnz n) r0 a0) env h
  = Reshape.evaluateGen n [i0] [o0] h.
Proof.
  intros Hea Her Hinj Hinp Hout.
  unfold run. simpl. rewrite Her, Hea. simpl.
  rewrite (evaluateGen_distinct n [i0] [o0] h i0 o0 inp out) by done.
  destruct (decide (Reshape.nnz n ≤ length (data inp)
                    ∧ Reshape.nnz n ≤ length (data out)))
    as [[Hli Hlo]|Hshort].
  - rewrite copy_front by done. simpl.
    pose proof (assign_loop_run o0 i0 h inp out (Reshape.nnz n)
                  Hinj Hinp Hout 0) as Hrun.
    simpl in Hrun. rewrite drop_0, set_data_id in Hrun.
    rewrite insert_id in Hrun by done. by apply Hrun.
  - destruct (copy (data inp) 0 (Reshape.nnz n) (data out) 0)
      as [l|] eqn:Hcopy.
    { exfalso. apply Hshort.
      apply (copy_is_Some (data inp) (Reshape.nnz n) 0 (data out) 0);
        [lia | lia | by eexists]. }
    simpl.
    apply (assign_loop_None o0 i0
             (Nat.min (length (data inp)) (length (data out)))
             (length (data inp)) (length (data out)) _ Hinj)
      with (inp := inp) (out := out); try done; lia.
Qed.

(** X17.  Code generation agrees with numeric evaluation, on a stream in
    the default formatting state.  Take argument and result names that are
    array names of C, bound to allocated buffers, the same buffer exactly
    when the names are equal.  For equal names nothing is appended to the
    stream, as evaluateGen does nothing in place; otherwise the text
    appended is one copy loop over [nnz] entries, with [nnz] in decimal.
    What the appended text does when it is read back and run on the buffers
    is what evaluateGen does on them, undefined cases included. *)
Theorem Reshape_generateOperation_runs {S : Type} `{!OStream S}
    `{!DefaultFormat S} {T : Type} (n : Reshape.Node MX)
    (stream : S) (arg res : list string) a0 r0
    (env : string -> option addr) (h : gmap addr (Matrix T)) i0 o0 inp out :
  arg !! 0 = Some a0 -> res !! 0 = Some r0 ->
  is_name a0 -> is_name r0 ->
  env a0 = Some i0 -> env r0 = Some o0 -> (a0 ≠ r0 -> i0 ≠ o0) ->
  h !! i0 = Some inp -> h !! o0 = Some out ->
  ∃ stream' emitted,
    ReshapeText.generateOperation n stream arg res = Some stream'
    ∧ contents stream' = contents stream +:+ emitted
    ∧ (a0 = r0 -> emitted = "")
    ∧ (a0 ≠ r0 -> emitted = render (mkCopyLoop (Reshape.nnz n) r0 a0))
    ∧ exec emitted env h = Reshape.evaluateGen n [i0] [o0] h.
Proof.
  intros Ha Hr Hna Hnr Hea Her Hinj Hinp Hout.
  unfold ReshapeText.generateOperation. rewrite Ha, Hr. simpl.
  destruct (decide (a0 = r0)) as [->|Hne].
  - assert (i0 = o0) as -> by congruence.
    exists stream, "". split; [done|].
    split; [by rewrite string_app_empty_r|].
    split; [done|]. split; [done|].
    unfold exec, Reshape.evaluateGen. simpl. by rewrite decide_True.
  - specialize (Hinj Hne).
    eexists _, (render (mkCopyLoop (Reshape.nnz n) r0 a0)).
    split; [done|]. split; [|split; [done|split; [done|]]].
    + rewrite contents_put_endl, !contents_put_string, contents_put_int,
        contents_put_string.
      by rewrite !string_app_assoc.
    + unfold exec. rewrite decide_False by apply render_not_empty.
      rewrite parse_render by done. simpl.
      by apply (copy_loop_is_evaluateGen n a0 r0 env h i0 o0 inp out).
Qed.

End GenerateMore.

(** ** The rocket model *)

Section RocketMore.
Context {double : Type}.
Context (sub mul div : double -> double -> double) (neg : double -> double).
Context (lit_0_02 lit_0_01 : double).

Local Abbreviation dae_res_c := (Rocket.dae_res_c sub mul div neg lit_0_02 lit_0_01).
Local Abbreviation ode_rhs_c := (Rocket.ode_rhs_c sub mul div neg lit_0_02 lit_0_01).

(** X18.  The residual is the state derivative minus the right-hand side:
    on arrays long enough, both functions return, the first three entries of
    [res] are those of [yydot] minus those that [ode_rhs_c] writes, whatever
    the arithmetic is, and entries beyond the first three are left alone. *)
Theorem Rocket_residual_is_ydot_minus_rhs tt (yy yydot pp res rhs : list double) :
  3 ≤ length yy -> 3 ≤ length yydot -> 1 ≤ length pp ->
  3 ≤ length res -> 3 ≤ length rhs ->
  ∃ res' rhs',
    dae_res_c tt yy yydot pp res = Some res'
    ∧ ode_rhs_c tt yy pp rhs = Some rhs'
    ∧ take 3 res' = zip_with sub (take 3 yydot) (take 3 rhs')
    ∧ drop 3 res' = drop 3 res ∧ drop 3 rhs' = drop 3 rhs.
Proof.
  intros Hyy Hyd Hpp Hres Hrhs.
  destruct yy as [|s [|v [|m yy]]]; simpl in Hyy; try lia.
  destruct yydot as [|sd [|vd [|md yydot]]]; simpl in Hyd; try lia.
  destruct pp as [|u pp]; simpl in Hpp; try lia.
  destruct res as [|r0 [|r1 [|r2 res]]]; simpl in Hres; try lia.
  destruct rhs as [|q0 [|q1 [|q2 rhs]]]; simpl in Hrhs; try lia.
  by eexists _, _.
Qed.

(** X19.  Each function returns exactly when the arrays it is given are as
    long as the entries it touches: three states, one parameter, three
    outputs, and for the residual three state derivatives. *)
Theorem Rocket_defined_iff tt (yy yydot pp res rhs : list double) :
  (is_Some (dae_res_c tt yy yydot pp res)
   ↔ 3 ≤ length yy ∧ 3 ≤ length yydot ∧ 1 ≤ length pp ∧ 3 ≤ length res)
  ∧ (is_Some (ode_rhs_c tt yy pp rhs)
     ↔ 3 ≤ length yy ∧ 1 ≤ length pp ∧ 3 ≤ length rhs).
Proof.
  split.
  - destruct yy as [|s [|v [|m yy]]];
      try (split; [by intros [? ?] | simpl; lia]).
    destruct pp as [|u pp];
      try (split; [by intros [? ?] | simpl; lia]).
    destruct yydot as [|sd [|vd [|md yydot]]];
      try (split; [by intros [? ?] | simpl; lia]).
    destruct res as [|r0 [|r1 [|r2 res]]];
      try (split; [by intros [? ?] | simpl; lia]).
    split; [simpl; lia | by eexists].
  - destruct yy as [|s [|v [|m yy]]];
      try (split; [by intros [? ?] | simpl; lia]).
    destruct pp as [|u pp];
      try (split; [by intros [? ?] | simpl; lia]).
    destruct rhs as [|q0 [|q1 [|q2 rhs]]];
      try (split; [by intros [? ?] | simpl; lia]).
    split; [simpl; lia | by eexists].
Qed.

(** X20.  The model is autonomous and does not depend on the position:
    neither function's result changes with the time [tt] or with the value
    of [yy[0]]. *)
Theorem Rocket_time_and_position_unused tt tt' s' (yy yydot pp res rhs : list double) :
  dae_res_c tt' (<[0 := s']> yy) yydot pp res = dae_res_c tt yy yydot pp res
  ∧ ode_rhs_c tt' (<[0 := s']> yy) pp rhs = ode_rhs_c tt yy pp rhs.
Proof. by destruct yy. Qed.

End RocketMore.

(** ** Instances on the concrete data *)

Section MoreWitnesses.
  Import Example ConstMX MoreExamples.

Lemma tags_in_range : words_in_range tags.
Proof.
  intros p m Hp. unfold tags in Hp.
  apply lookup_insert_Some in Hp as [[_ <-]|[_ Hp]];
    [repeat constructor; lia|].
  apply lookup_singleton_Some in Hp as [_ <-]. repeat constructor; lia.
Qed.

(** The statement emitted for the example node on a stream in the default
    state, and what it denotes. *)
Example generated_text :
  ReshapeText.generateOperation reshape_node "" ["a"] ["r"]
  = Some ("  for (i=0; i<6; ++i) r[i] = a[i];" +:+ ReshapeText.endl)
  ∧ GeneratedC.parse
      ("  for (i=0; i<6; ++i) r[i] = a[i];" +:+ ReshapeText.endl)
    = Some (GeneratedC.mkCopyLoop 6 "r" "a").
Proof. by vm_compute. Qed.

(** The state of the stream matters.  On a stream left in base 16 the node
    with sixteen nonzeros emits the bound [10], which C reads as ten: the
    loop copies ten of the sixteen entries.  The node with twelve nonzeros
    would emit the bound [c], which is no constant. *)
Example generated_text_hex :
  Reshape.nnz wide_node = 16
  ∧ (s' ← ReshapeText.generateOperation wide_node (HexStream.mk "")
            ["a"] ["r"];
     Some (HexStream.text s'))
    = Some ("  for (i=0; i<10; ++i) r[i] = a[i];" +:+ ReshapeText.endl)
  ∧ GeneratedC.parse
      ("  for (i=0; i<10; ++i) r[i] = a[i];" +:+ ReshapeText.endl)
    = Some (GeneratedC.mkCopyLoop 10 "r" "a")
  ∧ HexStream.hex 12 = "c"
  ∧ GeneratedC.parse
      ("  for (i=0; i<c; ++i) r[i] = a[i];" +:+ ReshapeText.endl)
    = None.
Proof. by vm_compute. Qed.

Lemma Reshape_evaluateGen_defined_iff_witness :
  is_Some (Reshape.evaluateGen reshape_node [1%Z] [2%Z] buffers)
  ↔ Reshape.nnz reshape_node ≤ length (data x23)
    ∧ Reshape.nnz reshape_node
      ≤ length (data (mkMatrix (dense 3 2) [0; 0; 0; 0; 0; 0]%Z)).
Proof.
  apply (Reshape_evaluateGen_defined_iff reshape_node [1%Z] [2%Z] buffers
           1%Z 2%Z x23 (mkMatrix (dense 3 2) [0; 0; 0; 0; 0; 0]%Z));
    [reflexivity | reflexivity | lia | reflexivity | reflexivity].
Defined.

Lemma Reshape_evaluateGen_idempotent_witness :
  Reshape.evaluateGen reshape_node [1%Z] [2%Z]
    (<[2%Z := mkMatrix (dense 3 2) [1; 2; 3; 4; 5; 6]%Z]> buffers)
  = Some (<[2%Z := mkMatrix (dense 3 2) [1; 2; 3; 4; 5; 6]%Z]> buffers).
Proof.
  apply (Reshape_evaluateGen_idempotent reshape_node [1%Z] [2%Z] buffers).
  vm_compute. reflexivity.
Defined.

Lemma Reshape_evaluateGen_chain_witness :
  ∃ h1 h2 h3,
    Reshape.evaluateGen reshape_node [1%Z] [2%Z] three_buffers = Some h1
    ∧ Reshape.evaluateGen column_node [2%Z] [3%Z] h1 = Some h2
    ∧ Reshape.evaluateGen column_node [1%Z] [3%Z] three_buffers = Some h3
    ∧ ∀ p, p ≠ 2%Z -> h2 !! p = h3 !! p.
Proof.
  apply (Reshape_evaluateGen_chain reshape_node column_node three_buffers
           1%Z 2%Z 3%Z x23 (mkMatrix (dense 3 2) [0; 0; 0; 0; 0; 0]%Z)
           (mkMatrix (dense 6 1) [9; 9; 9; 9; 9; 9]%Z));
    [lia | lia | lia | reflexivity | reflexivity | reflexivity | reflexivity
    | vm_compute; lia | vm_compute; lia | vm_compute; lia].
Defined.

Lemma Reshape_propagate_forward_is_evaluate_witness :
  Reshape.propagateSparsity reshape_node [1%Z] [2%Z] true tags
  = Reshape.evaluateGen reshape_node [1%Z] [2%Z] tags.
Proof.
  apply (Reshape_propagate_forward_is_evaluate reshape_node [1%Z] [2%Z] tags
           1%Z (mkMatrix (dense 2 3) [1; 0; 4; 0; 3; 8]%Z));
    reflexivity.
Defined.

Lemma Reshape_propagateSparsity_inplace_witness :
  Reshape.propagateSparsity reshape_node [1%Z] [1%Z] false tags = Some tags.
Proof.
  apply (Reshape_propagateSparsity_inplace reshape_node [1%Z] [1%Z] false
           tags 1%Z);
    reflexivity.
Defined.

Lemma Reshape_propagateSparsity_lengths_witness :
  ∃ h', Reshape.propagateSparsity reshape_node [1%Z] [2%Z] false tags = Some h'
    ∧ h' !! 2%Z
      = Some (mkMatrix (dense 3 2)
                (replicate 6 0%Z ++ drop 6 [2; 0; 4; 1; 5; 0]%Z)).
Proof.
  apply (proj2 (Reshape_propagateSparsity_lengths reshape_node [1%Z] [2%Z]
                  false tags 1%Z 2%Z
                  (mkMatrix (dense 2 3) [1; 0; 4; 0; 3; 8]%Z)
                  (mkMatrix (dense 3 2) [2; 0; 4; 1; 5; 0]%Z)
                  eq_refl eq_refl ltac:(lia) eq_refl eq_refl)).
  simpl. lia.
Defined.

Lemma Reshape_propagate_forward_backward_witness :
  (h1 ← Reshape.propagateSparsity reshape_node [1%Z] [2%Z] true tags;
   Reshape.propagateSparsity reshape_node [1%Z] [2%Z] false h1)
  = Some (<[2%Z := mkMatrix (dense 3 2) (replicate 6 0%Z)]> tags).
Proof.
  apply (Reshape_propagate_forward_backward reshape_node [1%Z] [2%Z] tags
           1%Z 2%Z (mkMatrix (dense 2 3) [1; 0; 4; 0; 3; 8]%Z)
           (mkMatrix (dense 3 2) [2; 0; 4; 1; 5; 0]%Z));
    [reflexivity | reflexivity | lia | reflexivity | reflexivity | reflexivity].
Defined.

Lemma Reshape_propagate_backward_twice_witness :
  Reshape.propagateSparsity reshape_node [1%Z] [2%Z] false swept_tags
  = Some swept_tags.
Proof.
  apply (Reshape_propagate_backward_twice reshape_node [1%Z] [2%Z] tags).
  vm_compute. reflexivity.
Defined.

Lemma Reshape_propagate_backward_commute_witness :
  ∃ h',
    (h1 ← Reshape.propagateSparsity reshape_node [1%Z] [2%Z] false three_tags;
     Reshape.propagateSparsity column_node [1%Z] [3%Z] false h1) = Some h'
    ∧ (h1 ← Reshape.propagateSparsity column_node [1%Z] [3%Z] false three_tags;
       Reshape.propagateSparsity reshape_node [1%Z] [2%Z] false h1) = Some h'
    ∧ h' !! 1%Z
      = Some (mkMatrix (dense 2 3)
                (zip_with Z.lor
                   (zip_with Z.lor [1; 0; 4; 0; 3; 8]%Z [2; 0; 4; 1; 5; 0]%Z)
                   [16; 0; 0; 32; 0; 1]%Z)).
Proof.
  apply (Reshape_propagate_backward_commute reshape_node column_node
           three_tags 1%Z 2%Z 3%Z
           (mkMatrix (dense 2 3) [1; 0; 4; 0; 3; 8]%Z)
           (mkMatrix (dense 3 2) [2; 0; 4; 1; 5; 0]%Z)
           (mkMatrix (dense 6 1) [16; 0; 0; 32; 0; 1]%Z));
    [lia | lia | lia | reflexivity | reflexivity | reflexivity
    | simpl; lia | simpl; lia].
Defined.

Lemma Reshape_propagateSparsity_words_witness :
  words_in_range swept_tags.
Proof.
  apply (Reshape_propagateSparsity_words reshape_node [1%Z] [2%Z] false
           tags swept_tags tags_in_range).
  vm_compute. reflexivity.
Defined.

Lemma Reshape_evaluateMX_output_witness :
  ∃ s', Reshape.evaluateMX reshape_node input output
          fwdSeed fwdSens adjSeed adjSens false reshape_slots = Some s'
    ∧ s' !! 11%Z = Some (reshape x23 (Reshape.shape reshape_node)).
Proof.
  exact (Reshape_evaluateMX_output reshape_node input output
           fwdSeed fwdSens adjSeed adjSens false reshape_slots
           _ _ _ _ _ _ x23 reshape_call_ok eq_refl).
Defined.

Lemma Reshape_evaluateMX_frame_witness :
  ∃ s', Reshape.evaluateMX reshape_node input output
          fwdSeed fwdSens adjSeed adjSens false reshape_slots = Some s'
    ∧ (∀ r, r ∉ [11%Z] ++ [21; 23]%Z ++ [31; 33]%Z ++ [30; 32]%Z ->
            s' !! r = reshape_slots !! r)
    ∧ (∀ r, is_Some (s' !! r) ↔ is_Some (reshape_slots !! r)).
Proof.
  exact (Reshape_evaluateMX_frame reshape_node input output
           fwdSeed fwdSens adjSeed adjSens false reshape_slots
           _ _ _ _ _ _ (proj1 reshape_call_ok)).
Defined.

Lemma Reshape_evaluateMX_short_tables_witness :
  Reshape.evaluateMX reshape_node input output
    [[20%Z]] fwdSens adjSeed adjSens false reshape_slots = None.
Proof.
  apply (Reshape_evaluateMX_short_tables reshape_node input output
           [[20%Z]] fwdSens adjSeed adjSens false reshape_slots 10%Z 11%Z);
    [reflexivity | reflexivity | lia | left; simpl; lia].
Defined.

Lemma Reshape_evaluateMX_extra_rows_witness :
  Reshape.evaluateMX reshape_node input output
    (fwdSeed ++ [[99%Z]]) fwdSens adjSeed (adjSens ++ [[]; [98%Z]]) false
    reshape_slots
  = Reshape.evaluateMX reshape_node input output
      fwdSeed fwdSens adjSeed adjSens false reshape_slots.
Proof.
  apply (Reshape_evaluateMX_extra_rows reshape_node input output
           fwdSeed fwdSens adjSeed adjSens [[99%Z]] [[]; [98%Z]] false
           reshape_slots);
    simpl; lia.
Defined.


Lemma Reshape_generateOperation_runs_witness :
  ∃ stream' emitted,
    ReshapeText.generateOperation reshape_node "" ["a"] ["r"] = Some stream'
    ∧ contents stream' = contents "" +:+ emitted
    ∧ ("a" = "r" -> emitted = "")
    ∧ ("a" ≠ "r" ->
       emitted
       = GeneratedC.render
           (GeneratedC.mkCopyLoop (Reshape.nnz reshape_node) "r" "a"))
    ∧ GeneratedC.exec emitted names buffers
      = Reshape.evaluateGen reshape_node [1%Z] [2%Z] buffers.
Proof.
  exact (Reshape_generateOperation_runs reshape_node "" ["a"] ["r"]
           "a" "r" names buffers 1%Z 2%Z x23
           (mkMatrix (dense 3 2) [0; 0; 0; 0; 0; 0]%Z)
           eq_refl eq_refl I I eq_refl eq_refl
           ltac:(intros _; lia) eq_refl eq_refl).
Defined.

Lemma Rocket_residual_is_ydot_minus_rhs_witness :
  ∃ res' rhs',
    dae_res_c (q 0 1) [q 0 1; q 3 1; q 10 1] [q 3 1; q 1 2; q (-1) 4]
      [q 5 1] [q 0 1; q 0 1; q 0 1] = Some res'
    ∧ ode_rhs_c (q 0 1) [q 0 1; q 3 1; q 10 1] [q 5 1]
        [q 0 1; q 0 1; q 0 1] = Some rhs'
    ∧ take 3 res'
      = zip_with QArith_base.Qminus (take 3 [q 3 1; q 1 2; q (-1) 4])
          (take 3 rhs')
    ∧ drop 3 res' = drop 3 [q 0 1; q 0 1; q 0 1]
    ∧ drop 3 rhs' = drop 3 [q 0 1; q 0 1; q 0 1].
Proof.
  apply (Rocket_residual_is_ydot_minus_rhs QArith_base.Qminus
           QArith_base.Qmult QArith_base.Qdiv QArith_base.Qopp
           (q 2 100) (q 1 100) (q 0 1));
    simpl; lia.
Defined.

End MoreWitnesses.
